(** * ipsubmap: resolution, classification and reporting engine

    A shallow embedding of [main.go] of bountyhub-org/ipsubmap: the
    per-scope report ([fragment]), its [append] and [write] methods, the
    resolver/classifier ([ipSubMap.resolve]), the batch loop
    ([ipSubMap.enumerate]) and the write phase ([ipSubMap.write]).

    Conventions of the embedding.
    - A Go [string] is a [string]; Go compares strings byte by byte, which is
      [String.compare].
    - A Go [map[string][]string] that may be [nil] is an
      [option (gmap string (list string))]; the order in which [range]
      visits the keys is not fixed by the language, so every function that
      ranges over a map takes that order as an argument, constrained by
      [range_order].
    - A Go [error] that may be [nil] is an [option error]. An [error] keeps
      the format string and the arguments [fmt.Errorf] was called with.
    - An [io.Writer] is a type with a [Write] operation that returns the
      sink after the call and the error of the call.
    - The standard library ([net], [bufio], [sort], [strings], [errors]) is
      not part of the repository; its functions are modelled from their
      documented behaviour and named after the Go function they stand for. *)

From Stdlib Require Import Strings.String Strings.Ascii Strings.Byte.
From Stdlib Require Import NArith List DecimalString.
From stdpp Require Import base gmap strings list sorting.

Local Open Scope string_scope.
Local Open Scope list_scope.
Set Warnings "-register-all,-clear-no-such-hyp".

(** ** Errors *)

(** An argument of [fmt.Errorf]: a string under [%q], an error under [%v]. *)
Inductive arg (E : Type) : Type :=
| ArgQ (s : string)
| ArgV (e : E).
Arguments ArgQ {E} s.
Arguments ArgV {E} e.

(** Go error values, as this program builds them. [External] stands for an
    error produced outside the program (resolver, reader, sink). *)
Inductive error : Type :=
| External (msg : string)
| Errorf (format : string) (args : list (arg error))
| Joined (errs : list error).

(** [errors.Join]: [nil] when there is no error to join, otherwise one error
    holding all of them in order. The program only ever passes non-nil
    errors. *)
Definition errors_Join (errs : list error) : option error :=
  match errs with
  | [] => None
  | _ :: _ => Some (Joined errs)
  end.

(** The hostname [host] is an argument of [e] or of an error inside [e]. *)
Fixpoint mentions (host : string) (e : error) : bool :=
  match e with
  | External _ => false
  | Errorf _ args =>
      existsb (fun a => match a with
                        | ArgQ s => String.eqb s host
                        | ArgV e' => mentions host e'
                        end) args
  | Joined errs => existsb (mentions host) errs
  end.

(** [e] is, or contains, the error [x]. *)
Fixpoint surfaces (x : string) (e : error) : bool :=
  match e with
  | External msg => String.eqb msg x
  | Errorf _ args =>
      existsb (fun a => match a with
                        | ArgQ _ => false
                        | ArgV e' => surfaces x e'
                        end) args
  | Joined errs => existsb (surfaces x) errs
  end.

(** ** Strings *)

Definition LF : string := String "010" EmptyString.

(** [strings.Join]. *)
Fixpoint strings_Join (elems : list string) (sep : string) : string :=
  match elems with
  | [] => ""
  | [e] => e
  | e :: rest => e +:+ sep +:+ strings_Join rest sep
  end.

(** Go's [<=] on strings: byte-wise lexicographic. *)
Definition string_le (s1 s2 : string) : Prop := String.leb s1 s2 = true.

#[global] Instance string_le_dec : RelDecision string_le.
Proof. intros s1 s2. unfold string_le. apply _. Defined.

(** [sort.Strings]: the keys in increasing order. *)
Definition sort_Strings (keys : list string) : list string :=
  merge_sort string_le keys.

(** ** Sinks *)

(** [io.Writer]. The count of bytes written is not used by the program. *)
Class Writer (W : Type) := Write : W → string → W * option error.

(** [bytes.Buffer]: grows by what is written, never fails. *)
Definition Buffer : Type := string.
#[global] Instance Buffer_Writer : Writer Buffer :=
  fun b p => (b +:+ p, None).

(** A sink with room for [room] more writes; once full, every write fails
    and leaves the content as it is. *)
Record Limited : Type := { content : string; room : nat }.
#[global] Instance Limited_Writer : Writer Limited :=
  fun w p =>
    match room w with
    | O => (w, Some (External "no space left on device"))
    | S n => ({| content := content w +:+ p; room := n |}, None)
    end.

(** ** fragment *)

Section Fragment.
Context {W : Type} `{!Writer W}.

Record fragment : Type := {
  out : option W;
  m : option (gmap string (list string));
}.

(** The keys of [mp] in an order [range] may visit them. *)
Definition range_order (mp : gmap string (list string))
    (order : list string) : Prop :=
  NoDup order ∧ list_to_set order = dom mp.

(** [f.m[k]]: the zero value for a missing key. *)
Definition index (mp : gmap string (list string)) (k : string)
    : list string :=
  default [] (mp !! k).

Definition fragment_append (f : fragment) (ip subdomain : string)
    : fragment :=
  match m f with
  | None => f
  | Some mp =>
      {| out := out f; m := Some (<[ip := index mp ip ++ [subdomain]]> mp) |}
  end.

(** [fmt.Sprintf("%s %s\n", k, strings.Join(f.m[k], ","))]. *)
Definition line (mp : gmap string (list string)) (k : string) : string :=
  k +:+ " " +:+ strings_Join (index mp k) "," +:+ LF.

(** The loop over the sorted keys: it returns at the first failing
    [Write]. *)
Fixpoint write_keys (w : W) (mp : gmap string (list string))
    (keys : list string) : W * option error :=
  match keys with
  | [] => (w, None)
  | k :: rest =>
      let output := line mp k in
      match Write w output with
      | (w', Some err) => (w', Some err)
      | (w', None) => write_keys w' mp rest
      end
  end.

(** [order] is the order in which [range f.m] yields the keys. *)
Definition fragment_write (order : list string) (f : fragment)
    : fragment * option error :=
  match m f, out f with
  | Some mp, Some w =>
      let keys := order in
      let keys := sort_Strings keys in
      let '(w', err) := write_keys w mp keys in
      ({| out := Some w'; m := Some mp |}, err)
  | _, _ => (f, None)
  end.
End Fragment.

Arguments fragment W : clear implicits.

(** The reports [main] builds: a scope whose output was asked for gets its
    sink and a fresh map together; any other scope keeps the zero value. *)
Definition new_fragment {W} (sink : option W) : fragment W :=
  match sink with
  | Some w => {| out := Some w; m := Some ∅ |}
  | None => {| out := None; m := None |}
  end.


(** ** net.IP *)

(** [type IP []byte]: 4 bytes for the short IPv4 form, 16 for IPv6 and for
    IPv4 in its mapped form. *)
Definition IP : Type := list byte.

#[global] Instance byte_eq_decision : EqDecision byte := Byte.byte_eq_dec.

Definition IPv4len : nat := 4.
Definition IPv6len : nat := 16.

(** [ip[i]] as a number. *)
Definition byte_at (ip : IP) (i : nat) : N :=
  default 0%N (Byte.to_N <$> ip !! i).

Definition isZeros (p : list byte) : bool :=
  forallb (fun b => (Byte.to_N b =? 0)%N) p.

(** [IP.To4]: the 4-byte form of an IPv4 address, [None] for Go's [nil]. *)
Definition To4 (ip : IP) : option IP :=
  if (length ip =? IPv4len)%nat then Some ip
  else if (length ip =? IPv6len)%nat && isZeros (take 10 ip)
          && (byte_at ip 10 =? 255)%N && (byte_at ip 11 =? 255)%N
       then Some (drop 12 ip)
       else None.

Definition is_nil {A} (o : option A) : bool :=
  match o with None => true | Some _ => false end.

Definition IPv6loopback : IP :=
  [x00; x00; x00; x00; x00; x00; x00; x00;
   x00; x00; x00; x00; x00; x00; x00; x01].

(** [IP.IsLoopback]: 127.0.0.0/8 or ::1. *)
Definition IsLoopback (ip : IP) : bool :=
  match To4 ip with
  | Some ip4 => (byte_at ip4 0 =? 127)%N
  | None => bool_decide (ip = IPv6loopback)
  end.

(** [IP.IsPrivate]: 10.0.0.0/8, 172.16.0.0/12, 192.168.0.0/16 or fc00::/7. *)
Definition IsPrivate (ip : IP) : bool :=
  match To4 ip with
  | Some ip4 =>
      (byte_at ip4 0 =? 10)%N
      || ((byte_at ip4 0 =? 172)%N && (N.land (byte_at ip4 1) 240 =? 16)%N)
      || ((byte_at ip4 0 =? 192)%N && (byte_at ip4 1 =? 168)%N)
  | None =>
      (length ip =? IPv6len)%nat && (N.land (byte_at ip 0) 254 =? 252)%N
  end.

Definition decimal (n : N) : string := NilZero.string_of_uint (N.to_uint n).

Definition hexdigit (n : N) : string :=
  match n with
  | 10 => "a" | 11 => "b" | 12 => "c" | 13 => "d" | 14 => "e" | 15 => "f"
  | _ => decimal n
  end%N.

(** Hexadecimal of a 16-bit group, without leading zeros. *)
Definition hex16 (x : N) : string :=
  (if (4096 <=? x)%N then hexdigit (N.shiftr x 12) else "")
  +:+ (if (256 <=? x)%N then hexdigit (N.land (N.shiftr x 8) 15) else "")
  +:+ (if (16 <=? x)%N then hexdigit (N.land (N.shiftr x 4) 15) else "")
  +:+ hexdigit (N.land x 15).

(** Both hexadecimal digits of a byte. *)
Definition hexbyte (b : byte) : string :=
  hexdigit (N.shiftr (Byte.to_N b) 4) +:+ hexdigit (N.land (Byte.to_N b) 15).

Definition v6u16 (ip : IP) (i : nat) : N :=
  N.lor (N.shiftl (byte_at ip (2 * i)) 8) (byte_at ip (2 * i + 1)).

Fixpoint zero_run (gs : list N) : nat :=
  match gs with
  | 0%N :: rest => S (zero_run rest)
  | _ => O
  end.

(** The first longest run of at least two zero groups, as (start, end);
    (255, 255) when there is none. *)
Fixpoint longest_zeros (gs : list N) (i : nat) (best : nat * nat)
    : nat * nat :=
  match gs with
  | [] => best
  | _ :: rest =>
      let l := zero_run gs in
      let best' :=
        if (2 <=? l)%nat && (best.2 - best.1 <? l)%nat then (i, i + l)
        else best in
      longest_zeros rest (S i) best'
  end.

Fixpoint string6_loop (fuel i : nat) (gs : list N) (zero : nat * nat)
    : string :=
  match fuel with
  | O => ""
  | S fuel =>
      if (8 <=? i)%nat then ""
      else if (i =? zero.1)%nat then
        "::" +:+ (if (8 <=? zero.2)%nat then ""
                  else hex16 (nth zero.2 gs 0%N)
                       +:+ string6_loop fuel (S zero.2) gs zero)
      else (if (0 <? i)%nat then ":" else "")
           +:+ hex16 (nth i gs 0%N) +:+ string6_loop fuel (S i) gs zero
  end.

(** The text of a 16-byte address: eight hexadecimal groups, the first
    longest run of zero groups written [::]. *)
Definition string6 (ip : IP) : string :=
  let gs := map (v6u16 ip) (seq 0 8) in
  string6_loop 8 0 gs (longest_zeros gs 0 (255, 255)%nat).

(** The text of a 4-byte address: dotted decimal. *)
Definition string4 (ip4 : IP) : string :=
  strings_Join (map (fun b => decimal (Byte.to_N b)) ip4) ".".

(** [IP.String]. *)
Definition IP_String (ip : IP) : string :=
  if (length ip =? 0)%nat then "<nil>"
  else if negb (length ip =? IPv4len)%nat && negb (length ip =? IPv6len)%nat
  then "?" +:+ String.concat "" (map hexbyte ip)
  else match To4 ip with
       | Some p4 => string4 p4
       | None => string6 ip
       end.

(** ** The resolver *)

(** [net.LookupIP]: the addresses of a host, or an error. The resolver is
    outside the program and may answer differently from call to call, so
    it is a state that every call advances. *)
Class Resolver (R : Type) := LookupIP : R → string → R * (list IP * option error).

(** A resolver that answers from a fixed table; a host that is not in the
    table is not found. *)
Definition Table : Type := gmap string (list IP).
#[global] Instance Table_Resolver : Resolver Table :=
  fun t host =>
    match t !! host with
    | Some ips => (t, (ips, None))
    | None => (t, ([], Some (External "no such host")))
    end.

(** Any resolver together with the list of the hosts it was asked for. *)
#[global] Instance Logged_Resolver {R} `{!Resolver R}
    : Resolver (R * list string) :=
  fun st host =>
    let '(r', answer) := LookupIP st.1 host in
    ((r', st.2 ++ [host]), answer).

(** ** bufio.Scanner *)

(** What an [io.Reader] delivers in the end: the bytes read before the end
    of the input or before a failure, and the failure if there was one. *)
Record Reader : Type := { data : string; failure : option error }.

Definition CR : ascii := "013"%char.

(** The text between newlines; a last piece without newline counts when it
    is not empty. *)
Fixpoint raw_lines (acc s : string) : list string :=
  match s with
  | EmptyString => if (String.length acc =? 0)%nat then [] else [acc]
  | String c rest =>
      if Ascii.eqb c "010"%char then acc :: raw_lines "" rest
      else raw_lines (acc +:+ String c EmptyString) rest
  end.

(** [dropCR]: one carriage return at the end is removed. *)
Fixpoint dropCR (l : string) : string :=
  match l with
  | EmptyString => EmptyString
  | String c EmptyString => if Ascii.eqb c CR then EmptyString else l
  | String c rest => String c (dropCR rest)
  end.

(** [bufio.MaxScanTokenSize]. *)
Definition MaxScanTokenSize : N := 65536.

Definition ErrTooLong : error := External "bufio.Scanner: token too long".

(** The tokens [Scan] delivers with [ScanLines], and what [Err] returns
    afterwards: a line that does not fit the buffer stops the scan. *)
Fixpoint scan_lines (raw : list string) (failure : option error)
    : list string * option error :=
  match raw with
  | [] => ([], failure)
  | l :: rest =>
      if (MaxScanTokenSize <=? N.of_nat (String.length l))%N
      then ([], Some ErrTooLong)
      else let '(tokens, err) := scan_lines rest failure in
           (dropCR l :: tokens, err)
  end.

Definition Scanner (rd : Reader) : list string * option error :=
  scan_lines (raw_lines "" (data rd)) (failure rd).

(** ** ipSubMap *)

Section IpSubMap.
Context {W R : Type} `{!Writer W, !Resolver R}.

Record ipSubMap : Type := {
  private : fragment W;
  public : fragment W;
  loopback : fragment W;
  ipv4 : bool;
  ipv6 : bool;
}.

Definition set_private (mp : ipSubMap) (f : fragment W) : ipSubMap :=
  {| private := f; public := public mp; loopback := loopback mp;
     ipv4 := ipv4 mp; ipv6 := ipv6 mp |}.
Definition set_public (mp : ipSubMap) (f : fragment W) : ipSubMap :=
  {| private := private mp; public := f; loopback := loopback mp;
     ipv4 := ipv4 mp; ipv6 := ipv6 mp |}.
Definition set_loopback (mp : ipSubMap) (f : fragment W) : ipSubMap :=
  {| private := private mp; public := public mp; loopback := f;
     ipv4 := ipv4 mp; ipv6 := ipv6 mp |}.

(** The [switch] of [resolve]: the report an accepted address goes to. *)
Definition route (subdomain : string) (mp : ipSubMap) (ip : IP)
    : ipSubMap :=
  let ipStr := IP_String ip in
  if IsLoopback ip then
    set_loopback mp (fragment_append (loopback mp) ipStr subdomain)
  else if IsPrivate ip then
    set_private mp (fragment_append (private mp) ipStr subdomain)
  else
    set_public mp (fragment_append (public mp) ipStr subdomain).

(** The body of the loop over the addresses in [resolve]. *)
Definition resolve_ip (subdomain : string) (mp : ipSubMap) (ip : IP)
    : ipSubMap :=
  if is_nil (To4 ip) && negb (ipv6 mp) then mp
  else if negb (is_nil (To4 ip)) && negb (ipv4 mp) then mp
  else route subdomain mp ip.

Definition ipSubMap_resolve (r : R) (mp : ipSubMap) (subdomain : string)
    : R * ipSubMap * option error :=
  let '(r', (ips, err)) := LookupIP r subdomain in
  match err with
  | Some err =>
      (r', mp,
       Some (Errorf "failed to resolve subdomain %q: %v"
               [ArgQ subdomain; ArgV err]))
  | None => (r', foldl (resolve_ip subdomain) mp ips, None)
  end.

(** The loop of [enumerate] over the scanned lines; [errs] grows by the
    error of every failed resolution. *)
Fixpoint enumerate_loop (r : R) (mp : ipSubMap) (errs : list error)
    (lines : list string) : R * ipSubMap * list error :=
  match lines with
  | [] => (r, mp, errs)
  | line :: rest =>
      if (String.length line =? 0)%nat then enumerate_loop r mp errs rest
      else
        match ipSubMap_resolve r mp line with
        | (r', mp', Some err) => enumerate_loop r' mp' (errs ++ [err]) rest
        | (r', mp', None) => enumerate_loop r' mp' errs rest
        end
  end.

Definition ipSubMap_enumerate (r : R) (mp : ipSubMap) (rd : Reader)
    : R * ipSubMap * option error :=
  let '(lines, scanErr) := Scanner rd in
  let '(r', mp', errs) := enumerate_loop r mp [] lines in
  match scanErr with
  | Some err =>
      (r', mp', Some (Errorf "failed to read input: %v" [ArgV err]))
  | None => (r', mp', errors_Join errs)
  end.

(** The three reports are written in the order private, public,
    loopback; each takes the order in which its own map is ranged. *)
Definition ipSubMap_write (orders : list string * list string * list string)
    (mp : ipSubMap) : ipSubMap * option error :=
  let '(oPrivate, oPublic, oLoopback) := orders in
  let errs := [] in
  let '(fPrivate, err) := fragment_write oPrivate (private mp) in
  let errs :=
    match err with
    | Some err =>
        errs ++ [Errorf "failed to write private ip subdomains: %v" [ArgV err]]
    | None => errs
    end in
  let '(fPublic, err) := fragment_write oPublic (public mp) in
  let errs :=
    match err with
    | Some err =>
        errs ++ [Errorf "failed to write public ip subdomains: %v" [ArgV err]]
    | None => errs
    end in
  let '(fLoopback, err) := fragment_write oLoopback (loopback mp) in
  let errs :=
    match err with
    | Some err =>
        errs ++ [Errorf "failed to write loopback ip subdomains: %v" [ArgV err]]
    | None => errs
    end in
  ({| private := fPrivate; public := fPublic; loopback := fLoopback;
      ipv4 := ipv4 mp; ipv6 := ipv6 mp |},
   errors_Join errs).
End IpSubMap.

Arguments ipSubMap W : clear implicits.


(** ** Flags *)

Module Flags.
Record t : Type := {
  inputFile : string;
  outputPrivate : string;
  outputPublic : string;
  outputLoopback : string;
  ipv4 : bool;
  ipv6 : bool;
}.
End Flags.

(** What [os.Stat] answers for a path: the file information, of which the
    program reads [IsDir] only, or an error, which either is
    [os.ErrNotExist] under [errors.Is] or is not. *)
Inductive StatResult : Type :=
| FileInfo (isDir : bool)
| NotExist (err : error)
| StatFailed (err : error).

(** [err != nil] after [os.Stat]. *)
Definition stat_err (st : StatResult) : option error :=
  match st with
  | FileInfo _ => None
  | NotExist err | StatFailed err => Some err
  end.

(** [errors.Is(err, os.ErrNotExist)] after [os.Stat]; false for a nil
    error. *)
Definition is_ErrNotExist (st : StatResult) : bool :=
  match st with
  | NotExist _ => true
  | FileInfo _ | StatFailed _ => false
  end.

Definition allEmptyStrings (first : string) (others : list string) : bool :=
  if negb (String.eqb first "") then false
  else
    (fix loop (others : list string) : bool :=
       match others with
       | [] => true
       | s :: rest => if negb (String.eqb s "") then false else loop rest
       end) others.

(** [Stat] is the file system as [os.Stat] sees it during the call. *)
Definition Flags_Validate (Stat : string → StatResult) (f : Flags.t)
    : option error :=
  match Stat (Flags.inputFile f) with
  | NotExist err | StatFailed err =>
      Some (Errorf "failed to stat input file: %v" [ArgV err])
  | FileInfo isDir =>
      if isDir then Some (Errorf "input file is a directory" [])
      else if allEmptyStrings (Flags.outputPrivate f)
                [Flags.outputPublic f; Flags.outputLoopback f]
      then Some (Errorf "no output files specified" [])
      else if negb (String.eqb (Flags.outputPrivate f) "")
              && negb (is_ErrNotExist (Stat (Flags.outputPrivate f)))
      then Some (Errorf "output file %q already exists"
                   [ArgQ (Flags.outputPrivate f)])
      else if negb (String.eqb (Flags.outputPublic f) "")
              && negb (is_ErrNotExist (Stat (Flags.outputPublic f)))
      then Some (Errorf "output file %q already exists"
                   [ArgQ (Flags.outputPublic f)])
      else if negb (String.eqb (Flags.outputLoopback f) "")
              && negb (is_ErrNotExist (Stat (Flags.outputLoopback f)))
      then Some (Errorf "output file %q already exists"
                   [ArgQ (Flags.outputLoopback f)])
      else if negb (Flags.ipv4 f) && negb (Flags.ipv6 f)
      then Some (Errorf "no ip version specified" [])
      else None
  end.

(** ** main *)

(** A record of the logger: its level, its message and its [error]
    attribute. *)
Inductive Level : Type := LevelInfo | LevelError.
Record LogRecord : Type := {
  level : Level;
  msg : string;
  attr : option error;
}.

(** The end of [main], from the call of [enumerate] on: the mapper is the
    one built from the flags, [buf] the opened input. The result holds the
    records logged and the exit code of the process. *)
Definition main_run {W R} `{!Writer W, !Resolver R}
    (r : R) (mapper : ipSubMap W) (buf : Reader)
    (orders : list string * list string * list string)
    : R * ipSubMap W * list LogRecord * nat :=
  let '(r, mapper, err) := ipSubMap_enumerate r mapper buf in
  let log :=
    match err with
    | Some err =>
        [{| level := LevelError;
            msg := "Encountered errors while enumerating";
            attr := Some err |}]
    | None => []
    end in
  let log :=
    log ++ [{| level := LevelInfo; msg := "Writing output files";
               attr := None |}] in
  let '(mapper, err) := ipSubMap_write orders mapper in
  match err with
  | Some err =>
      (r, mapper,
       log ++ [{| level := LevelError;
                  msg := "Encountered errors while writing";
                  attr := Some err |}],
       1%nat)
  | None => (r, mapper, log, 0%nat)
  end.


(** * Vocabulary of the statements *)

(** Go's [<] on strings. *)
Definition string_lt (s1 s2 : string) : Prop := String.ltb s1 s2 = true.

(** The sink after [lines] were written one after the other, provided
    every one of these writes succeeded. *)
Fixpoint write_all {W} `{!Writer W} (w : W) (lines : list string)
    : option W :=
  match lines with
  | [] => Some w
  | l :: rest =>
      match Write w l with
      | (w', None) => write_all w' rest
      | (_, Some _) => None
      end
  end.

(** A report has its sink and its map together, or neither. *)
Definition paired {W} (f : fragment W) : Prop := out f = None ↔ m f = None.

(** [hosts] appended one after the other under the key [ip]. *)
Definition appends {W} (f : fragment W) (ip : string) (hosts : list string)
    : fragment W :=
  foldl (fun f host => fragment_append f ip host) f hosts.

(** The three scopes and the report of each. *)
Inductive Scope : Type := Loopback | Private | Public.

Definition report {W} (s : Scope) (mp : ipSubMap W) : fragment W :=
  match s with
  | Loopback => loopback mp
  | Private => private mp
  | Public => public mp
  end.

(** The scope of an address: loopback when it is a loopback address,
    private when it is in a private range and is not loopback, public
    otherwise. *)
Definition in_scope (s : Scope) (ip : IP) : bool :=
  match s with
  | Loopback => IsLoopback ip
  | Private => IsPrivate ip && negb (IsLoopback ip)
  | Public => negb (IsLoopback ip) && negb (IsPrivate ip)
  end.

(** An address is IPv4 when it has a 4-byte form, IPv6 otherwise. *)
Definition isIPv4 (ip : IP) : bool := negb (is_nil (To4 ip)).
Definition isIPv6 (ip : IP) : bool := is_nil (To4 ip).

(** The version filter: IPv4 while include-v4 is off, or IPv6 while
    include-v6 is off. *)
Definition skipped {W} (mp : ipSubMap W) (ip : IP) : bool :=
  (isIPv4 ip && negb (ipv4 mp)) || (isIPv6 ip && negb (ipv6 mp)).

(** The addresses [ips] of [host] appended to one report, in order, each
    under its text. *)
Definition record {W} (f : fragment W) (host : string) (ips : list IP)
    : fragment W :=
  foldl (fun f ip => fragment_append f (IP_String ip) host) f ips.

(** A line that is passed to the resolver. *)
Definition nonempty (line : string) : bool :=
  negb (String.length line =? 0)%nat.

(** The lines of a text put back together, each followed by a newline. *)
Fixpoint unlines (lines : list string) : string :=
  match lines with
  | [] => ""
  | l :: rest => l +:+ LF +:+ unlines rest
  end.

(** The answers of the resolver to [hosts], asked one after the other, and
    the resolver after the last of them. *)
Fixpoint answers {R} `{!Resolver R} (r : R) (hosts : list string)
    : R * list (string * (list IP * option error)) :=
  match hosts with
  | [] => (r, [])
  | host :: rest =>
      let '(r1, answer) := LookupIP r host in
      let '(r2, others) := answers r1 rest in
      (r2, (host, answer) :: others)
  end.

(** [ResolutionError]: the error kept for a host that failed to resolve. *)
Definition ResolutionError (host : string) (cause : error) : error :=
  Errorf "failed to resolve subdomain %q: %v" [ArgQ host; ArgV cause].

(** [InputReadError]. *)
Definition InputReadError (cause : error) : error :=
  Errorf "failed to read input: %v" [ArgV cause].

Definition failure_of (a : string * (list IP * option error)) : list error :=
  match a.2.2 with
  | Some cause => [ResolutionError a.1 cause]
  | None => []
  end.

(** The resolution errors of a run, in the order they were met. *)
Definition failures (tr : list (string * (list IP * option error)))
    : list error :=
  flat_map failure_of tr.

(** What one answer adds to the reports: nothing when the resolution
    failed, otherwise each address in turn. *)
Definition record_answer {W} (mp : ipSubMap W)
    (a : string * (list IP * option error)) : ipSubMap W :=
  match a.2.2 with
  | Some _ => mp
  | None => foldl (resolve_ip a.1) mp a.2.1
  end.

Definition scope_name (s : Scope) : string :=
  match s with
  | Loopback => "loopback"
  | Private => "private"
  | Public => "public"
  end.

(** [WriteError]: a failed write, tagged with the name of its scope. *)
Definition WriteError (s : Scope) (cause : error) : error :=
  Errorf ("failed to write " +:+ scope_name s +:+ " ip subdomains: %v")
    [ArgV cause].

Definition tagged (s : Scope) (err : option error) : list error :=
  match err with
  | Some cause => [WriteError s cause]
  | None => []
  end.

(** The order in which the map of a scope is ranged by [ipSubMap.write]. *)
Definition order_of (s : Scope)
    (orders : list string * list string * list string) : list string :=
  match s with
  | Private => orders.1.1
  | Public => orders.1.2
  | Loopback => orders.2
  end.

(** The errors of the write phase, in the order the reports are written. *)
Definition write_errors {W} `{!Writer W}
    (orders : list string * list string * list string) (mp : ipSubMap W)
    : list error :=
  tagged Private (fragment_write (order_of Private orders) (private mp)).2
  ++ tagged Public (fragment_write (order_of Public orders) (public mp)).2
  ++ tagged Loopback
       (fragment_write (order_of Loopback orders) (loopback mp)).2.

(** * Sample data *)

(** The accumulation of the test of [fragment.write]. *)
Definition sample_map : gmap string (list string) :=
  <["2.2.2.2" := ["a"]]> (<["1.1.1.1" := ["a"; "b"]]> ∅).

(** Two keys whose order as strings is not their order as addresses. *)
Definition numeric_map : gmap string (list string) :=
  <["2.2.2.2" := ["a"]]> (<["10.0.0.2" := ["b"]]> ∅).

Definition empty_report {W} (w : W) : fragment W :=
  {| out := Some w; m := Some ∅ |}.

(** A mapper as [main] builds it when all three outputs are asked for. *)
Definition sample_mapper (v4 v6 : bool) : ipSubMap Buffer :=
  {| private := empty_report ""; public := empty_report "";
     loopback := empty_report ""; ipv4 := v4; ipv6 := v6 |}.

Definition ip_127_0_0_1 : IP := [x7f; x00; x00; x01].
Definition ip_10_0_0_5 : IP := [x0a; x00; x00; x05].
Definition ip_93_184_216_34 : IP := [x5d; xb8; xd8; x22].
Definition ip_fd00__1 : IP :=
  [xfd; x00; x00; x00; x00; x00; x00; x00;
   x00; x00; x00; x00; x00; x00; x00; x01].
Definition ip_2001_db8__1 : IP :=
  [x20; x01; x0d; xb8; x00; x00; x00; x00;
   x00; x00; x00; x00; x00; x00; x00; x01].
(** ::ffff:192.0.2.1 *)
Definition ip_mapped_192_0_2_1 : IP :=
  [x00; x00; x00; x00; x00; x00; x00; x00;
   x00; x00; xff; xff; xc0; x00; x02; x01].

Definition sample_table : Table :=
  <["good.example" := [ip_93_184_216_34]]>
  (<["good2.example" := [ip_93_184_216_34; ip_10_0_0_5]]>
  (<["dual.example" := [ip_93_184_216_34; ip_2001_db8__1]]>
  (<["mapped.example" := [ip_mapped_192_0_2_1]]>
  (<["all.example" := [ip_127_0_0_1; ip_10_0_0_5; ip_93_184_216_34;
                       IPv6loopback; ip_fd00__1; ip_2001_db8__1]]> ∅)))).

(** An input whose second host does not resolve and whose reading fails
    after the second line. *)
Definition broken_input : Reader :=
  {| data := "good.example" +:+ LF +:+ "bad.invalid" +:+ LF;
     failure := Some (External "read: input/output error") |}.

Definition partial_input : Reader :=
  {| data := "good.example" +:+ LF +:+ "bad.invalid" +:+ LF +:+ LF
             +:+ "good2.example" +:+ LF;
     failure := None |}.

Definition blank_input : Reader :=
  {| data := "a.example" +:+ LF +:+ LF +:+ " " +:+ String CR LF
             +:+ String CR LF +:+ "tail";
     failure := None |}.

(** Three reports on sinks of limited room: the private one has room for
    one of its three lines, the public one for none, the loopback one for
    all. *)
Definition limited_mapper : ipSubMap Limited :=
  {| private :=
       {| out := Some {| content := ""; room := 1 |};
          m := Some (<["10.0.0.1" := ["a"]]> (<["10.0.0.2" := ["b"]]>
                    (<["10.0.0.3" := ["c"]]> ∅))) |};
     public :=
       {| out := Some {| content := ""; room := 0 |};
          m := Some (<["8.8.8.8" := ["d"]]> ∅) |};
     loopback :=
       {| out := Some {| content := ""; room := 5 |};
          m := Some (<["127.0.0.1" := ["e"]]> ∅) |};
     ipv4 := true; ipv6 := true |}.

Definition limited_orders : list string * list string * list string :=
  (["10.0.0.3"; "10.0.0.1"; "10.0.0.2"], ["8.8.8.8"], ["127.0.0.1"]).

(** The three output paths of the flags. *)
Definition outputs (f : Flags.t) : list string :=
  [Flags.outputPrivate f; Flags.outputPublic f; Flags.outputLoopback f].

Definition sample_flags : Flags.t :=
  {| Flags.inputFile := "subdomains.txt";
     Flags.outputPrivate := "private.txt";
     Flags.outputPublic := "";
     Flags.outputLoopback := "loopback.txt";
     Flags.ipv4 := true; Flags.ipv6 := false |}.

(** A file system that holds the input file and nothing else. *)
Definition sample_stat (path : string) : StatResult :=
  if String.eqb path "subdomains.txt" then FileInfo false
  else NotExist (External "no such file or directory").

(** The addresses of one answer that the report of scope [s] receives:
    none when the resolution failed, otherwise the accepted addresses of
    that scope. *)
Definition received {W} (s : Scope) (mp : ipSubMap W)
    (a : string * (list IP * option error)) : list IP :=
  match a.2.2 with
  | Some _ => []
  | None =>
      List.filter (fun ip => negb (skipped mp ip) && in_scope s ip) a.2.1
  end.

(** What one answer adds under the key [k] of the report of scope [s]: its
    host, once for every received address whose text is [k]. *)
Definition hits {W} (s : Scope) (mp : ipSubMap W) (k : string)
    (a : string * (list IP * option error)) : list string :=
  map (fun _ => a.1)
    (List.filter (fun ip => String.eqb (IP_String ip) k) (received s mp a)).

(** A sink type none of whose writes fails. *)
Definition accepting (W : Type) `{!Writer W} : Prop :=
  ∀ (w : W) (p : string), (Write w p).2 = None.

(** An input of blank lines only, with both line endings. *)
Definition blank_only_input : Reader :=
  {| data := LF +:+ String CR LF +:+ LF; failure := None |}.

(** Every key of the report has at least one host. *)
Definition hosts_nonempty {W} (f : fragment W) : Prop :=
  ∀ fm k hosts, m f = Some fm → fm !! k = Some hosts → hosts ≠ [].

(** [s] holds a newline. *)
Fixpoint has_LF (s : string) : bool :=
  match s with
  | EmptyString => false
  | String c rest => Ascii.eqb c "010"%char || has_LF rest
  end.

(** [s] doubled [n] times. *)
Fixpoint doubled (n : nat) (s : string) : string :=
  match n with
  | O => s
  | S n => doubled n (s +:+ s)
  end.

(** A line of 65536 bytes, the size of the buffer of the scanner. *)
Definition long_line : string := doubled 16 "a".

(** An input that is read without failure: a host that does not resolve,
    a line of 65536 bytes, then a host that resolves. *)
Definition overlong_input : Reader :=
  {| data := "bad.invalid" +:+ LF +:+ long_line +:+ LF
             +:+ "good.example" +:+ LF;
     failure := None |}.

(** * Properties *)

(** ** The order on strings *)

Lemma ascii_compare_trans (x y z : ascii) (c : comparison) :
  Ascii.compare x y = c → Ascii.compare y z = c → Ascii.compare x z = c.
Proof.
  unfold Ascii.compare.
  destruct (N.compare_spec (N_of_ascii x) (N_of_ascii y)) as [E1|L1|G1];
    destruct (N.compare_spec (N_of_ascii y) (N_of_ascii z)) as [E2|L2|G2];
    intros <-; try discriminate; intros _.
  - apply N.compare_eq_iff. congruence.
  - apply N.compare_lt_iff. lia.
  - apply N.compare_gt_iff. lia.
Qed.

Lemma string_compare_lt_trans (a b c : string) :
  String.compare a b = Lt → String.compare b c = Lt → String.compare a c = Lt.
Proof.
  revert b c. induction a as [|x a IH]; intros [|y b] [|z c]; simpl;
    try discriminate; try reflexivity.
  destruct (Ascii.compare x y) eqn:Hxy; try discriminate;
    destruct (Ascii.compare y z) eqn:Hyz; try discriminate; intros Hab Hbc.
  - rewrite (ascii_compare_trans _ _ _ _ Hxy Hyz). eauto.
  - apply Ascii.compare_eq_iff in Hxy. subst y. rewrite Hyz. reflexivity.
  - apply Ascii.compare_eq_iff in Hyz. subst z. rewrite Hxy. reflexivity.
  - rewrite (ascii_compare_trans _ _ _ _ Hxy Hyz). reflexivity.
Qed.

Lemma string_le_lt_eq (a b : string) :
  string_le a b ↔ String.compare a b = Lt ∨ a = b.
Proof.
  unfold string_le, String.leb. split.
  - destruct (String.compare a b) eqn:E; try discriminate; intros _.
    + right. by apply String.compare_eq_iff.
    + by left.
  - intros [-> | ->]; [done|].
    destruct (String.compare b b) eqn:E; try done.
    pose proof (String.compare_antisym b b) as H. rewrite E in H. discriminate.
Qed.

#[global] Instance string_le_total : Total string_le.
Proof. intros a b. apply String.leb_total. Qed.

#[global] Instance string_le_antisymm : AntiSymm (=) string_le.
Proof. intros a b. apply String.leb_antisym. Qed.

#[global] Instance string_le_trans : Transitive string_le.
Proof.
  intros a b c [Hab| ->]%string_le_lt_eq [Hbc| ->]%string_le_lt_eq;
    apply string_le_lt_eq; eauto using string_compare_lt_trans.
Qed.

Lemma string_le_ne_lt (a b : string) : string_le a b → a ≠ b → string_lt a b.
Proof.
  intros [H|H]%string_le_lt_eq Hne; [|done].
  unfold string_lt, String.ltb. by rewrite H.
Qed.

(** ** sort.Strings *)

Lemma sort_Strings_Permutation (keys : list string) :
  sort_Strings keys ≡ₚ keys.
Proof. apply merge_sort_Permutation. Qed.

Lemma sort_Strings_sorted (keys : list string) :
  StronglySorted string_le (sort_Strings keys).
Proof. apply StronglySorted_merge_sort; apply _. Qed.

(** The result depends on the set of keys only, not on their order. *)
Lemma sort_Strings_order (keys1 keys2 : list string) :
  keys1 ≡ₚ keys2 → sort_Strings keys1 = sort_Strings keys2.
Proof.
  intros HP. apply (StronglySorted_unique string_le);
    auto using sort_Strings_sorted.
  by rewrite !sort_Strings_Permutation.
Qed.

Lemma StronglySorted_le_lt (keys : list string) :
  NoDup keys → StronglySorted string_le keys → StronglySorted string_lt keys.
Proof.
  intros Hnd Hs. induction Hs as [|k keys Hs IH Hall]; [constructor|].
  apply NoDup_cons in Hnd as [Hk Hnd]. constructor; [by apply IH|].
  rewrite Forall_forall in Hall |- *. intros x Hx.
  apply string_le_ne_lt; [by apply Hall|]. by intros ->.
Qed.

(** ** range over a map *)

Lemma range_order_elem_of (mp : gmap string (list string)) order k :
  range_order mp order → k ∈ order ↔ is_Some (mp !! k).
Proof.
  intros [_ Hdom]. rewrite <-elem_of_dom, <-Hdom. by rewrite elem_of_list_to_set.
Qed.

Lemma range_order_Permutation (mp : gmap string (list string)) o1 o2 :
  range_order mp o1 → range_order mp o2 → o1 ≡ₚ o2.
Proof.
  intros H1 H2. apply NoDup_Permutation; [apply H1|apply H2|].
  intros k. by rewrite !(range_order_elem_of mp).
Qed.

Lemma range_order_empty order :
  range_order (∅ : gmap string (list string)) order → order = [].
Proof.
  intros H. destruct order as [|k order]; [done|].
  assert (is_Some ((∅ : gmap string (list string)) !! k)) as [? Hk].
  { apply (range_order_elem_of _ (k :: order)); [done|left]. }
  by rewrite lookup_empty in Hk.
Qed.

#[global] Instance range_order_dec mp order : Decision (range_order mp order).
Proof. unfold range_order. apply _. Defined.

(** ** fragment.append and fragment.write *)

Section FragmentFacts.
Context {W : Type} `{!Writer W}.
Implicit Types (f : fragment W) (mp : gmap string (list string)).
Implicit Types (w : W) (order keys : list string).

Lemma fragment_append_nil f ip host :
  m f = None → fragment_append f ip host = f.
Proof. unfold fragment_append. by intros ->. Qed.

Lemma fragment_append_index f mp ip host :
  m f = Some mp →
  ∃ mp', m (fragment_append f ip host) = Some mp'
         ∧ index mp' ip = index mp ip ++ [host]
         ∧ ∀ k, k ≠ ip → mp' !! k = mp !! k.
Proof.
  intros Hm. unfold fragment_append. rewrite Hm. eexists. split; [done|].
  split.
  - unfold index at 1. by rewrite lookup_insert_eq.
  - intros k Hk. by rewrite lookup_insert_ne.
Qed.

Lemma appends_index f mp ip hosts :
  m f = Some mp →
  ∃ mp', m (appends f ip hosts) = Some mp'
         ∧ index mp' ip = index mp ip ++ hosts.
Proof.
  revert f mp. induction hosts as [|h hosts IH]; intros f mp Hm; simpl.
  - exists mp. by rewrite app_nil_r.
  - destruct (fragment_append_index f mp ip h Hm) as (mp1 & Hm1 & Hi & _).
    destruct (IH _ _ Hm1) as (mp' & Hm' & Hi').
    exists mp'. split; [done|]. by rewrite Hi', Hi, <-app_assoc.
Qed.

Lemma write_keys_all w w' mp keys :
  write_all w (map (line mp) keys) = Some w' →
  write_keys w mp keys = (w', None).
Proof.
  revert w. induction keys as [|k keys IH]; intros w; simpl.
  - by intros [= ->].
  - destruct (Write w (line mp k)) as [w1 [e|]]; [done|]. apply IH.
Qed.

(** The loop stops at the first failing write: the keys after it play no
    part in the result. *)
Lemma write_keys_abort w w1 w2 err mp keys1 k keys2 :
  write_all w (map (line mp) keys1) = Some w1 →
  Write w1 (line mp k) = (w2, Some err) →
  write_keys w mp (keys1 ++ k :: keys2) = (w2, Some err).
Proof.
  revert w. induction keys1 as [|k1 keys1 IH]; intros w; simpl.
  - intros [= ->] ->. done.
  - destruct (Write w (line mp k1)) as [w' [e|]]; [done|]. apply IH.
Qed.

Lemma line_format mp k hosts :
  mp !! k = Some hosts →
  line mp k = k +:+ " " +:+ strings_Join hosts "," +:+ LF.
Proof. unfold line, index. by intros ->. Qed.

Lemma sorted_keys mp order :
  range_order mp order →
  StronglySorted string_lt (sort_Strings order)
  ∧ ∀ k, k ∈ sort_Strings order ↔ is_Some (mp !! k).
Proof.
  intros Hr. split.
  - apply StronglySorted_le_lt; [|apply sort_Strings_sorted].
    rewrite sort_Strings_Permutation. apply Hr.
  - intros k. rewrite sort_Strings_Permutation.
    by apply range_order_elem_of.
Qed.

(** C1: a report with a sink and a map writes one line per key, the keys
    in increasing byte-wise order, each line being the key, a space, the
    hosts of the key joined by commas in the order they were appended,
    and a newline. The writes reach the sink in that order; [w'] is the
    sink after them. *)
Theorem C1_write_sorted_lines mp order w w' :
  range_order mp order →
  write_all w (map (line mp) (sort_Strings order)) = Some w' →
  StronglySorted string_lt (sort_Strings order)
  ∧ (∀ k, k ∈ sort_Strings order ↔ is_Some (mp !! k))
  ∧ Forall (fun k => ∃ hosts, mp !! k = Some hosts
              ∧ line mp k = k +:+ " " +:+ strings_Join hosts "," +:+ LF)
      (sort_Strings order)
  ∧ (∀ ip hosts, ∃ mp',
       m (appends {| out := Some w; m := Some mp |} ip hosts) = Some mp'
       ∧ index mp' ip = index mp ip ++ hosts)
  ∧ fragment_write order {| out := Some w; m := Some mp |}
    = ({| out := Some w'; m := Some mp |}, None).
Proof.
  intros Hr Hall. destruct (sorted_keys mp order Hr) as [Hs Hk].
  split; [done|]. split; [done|]. split; [|split].
  - apply Forall_forall. intros k [hosts Hh]%Hk. eauto using line_format.
  - intros ip hosts. by apply appends_index.
  - unfold fragment_write; simpl. by rewrite (write_keys_all _ w').
Qed.

(** C9: the output of [write] does not depend on the order in which the
    map is ranged: two runs from the same report and the same sink give
    the same sink and the same error. *)
Theorem C9_write_deterministic f mp order1 order2 :
  m f = Some mp →
  range_order mp order1 → range_order mp order2 →
  fragment_write order1 f = fragment_write order2 f.
Proof.
  intros Hm H1 H2. unfold fragment_write. rewrite Hm.
  destruct (out f) as [w|]; [|done]; simpl.
  by rewrite (sort_Strings_order order1 order2)
    by eauto using range_order_Permutation.
Qed.

Lemma new_fragment_paired (sink : option W) : paired (new_fragment sink).
Proof. by destruct sink. Qed.

Lemma fragment_append_out f ip host : out (fragment_append f ip host) = out f.
Proof. unfold fragment_append. by destruct (m f). Qed.

Lemma fragment_append_paired f ip host :
  paired f → paired (fragment_append f ip host).
Proof.
  unfold paired. rewrite fragment_append_out. unfold fragment_append.
  destruct f as [o [mp|]]; simpl; [|tauto]. intros [H1 _].
  split; [|done]. intros Ho. specialize (H1 Ho). discriminate.
Qed.

(** C7, as amended: a report without a map ignores what is appended, and
    such is every report without a sink that has sink and map together
    or neither, as the reports of [main] have and keep under [append]; a
    report without a sink writes nothing and succeeds, whatever its map
    holds; a report with a sink and no entry (no map, or an empty one)
    leaves the sink untouched and succeeds. *)
Theorem C7_inert_reports f ip host order :
  (m f = None → fragment_append f ip host = f)
  ∧ (paired f → out f = None → fragment_append f ip host = f)
  ∧ (paired f → paired (fragment_append f ip host))
  ∧ (out f = None → fragment_write order f = (f, None))
  ∧ (m f = None → fragment_write order f = (f, None))
  ∧ (m f = Some ∅ → range_order ∅ order →
     fragment_write order f = (f, None)).
Proof.
  split; [apply fragment_append_nil|].
  split; [intros Hp Ho; apply fragment_append_nil; by apply Hp|].
  split; [apply fragment_append_paired|].
  unfold fragment_write. split; [|split].
  - intros ->. by destruct (m f).
  - by intros ->.
  - intros Hm ->%range_order_empty. rewrite Hm.
    destruct f as [[w|] mf]; simpl in *; by subst.
Qed.
End FragmentFacts.

(** C7, as stated, fails: a report that has a map but no sink stores what
    is appended to it. *)
Lemma C7_no_sink_append_stores :
  ¬ (∀ (f : fragment Buffer) ip host,
       out f = None → fragment_append f ip host = f).
Proof.
  intros H.
  specialize (H {| out := None; m := Some ∅ |} "1.1.1.1" "example.com" eq_refl).
  apply (f_equal (fun f => index (default ∅ (m f)) "1.1.1.1")) in H.
  vm_compute in H. discriminate.
Qed.

(** ** ipSubMap.resolve *)

Lemma To4_length (ip ip4 : IP) : To4 ip = Some ip4 → length ip4 = 4%nat.
Proof.
  unfold To4, IPv4len, IPv6len.
  destruct (length ip =? 4)%nat eqn:E4.
  - intros [= <-]. by apply Nat.eqb_eq.
  - destruct (length ip =? 16)%nat eqn:E16; simpl; [|done].
    destruct (isZeros _ && _ && _); [|done]. intros [= <-].
    apply Nat.eqb_eq in E16. rewrite length_drop. lia.
Qed.

(** An address with a 4-byte form is written in dotted decimal. *)
Lemma IP_String_To4 (ip ip4 : IP) :
  To4 ip = Some ip4 → IP_String ip = string4 ip4.
Proof.
  intros H. unfold IP_String. rewrite H.
  revert H. unfold To4, IPv4len, IPv6len.
  destruct (length ip =? 4)%nat eqn:E4.
  - apply Nat.eqb_eq in E4. rewrite E4. done.
  - destruct (length ip =? 16)%nat eqn:E16; simpl; [|done].
    apply Nat.eqb_eq in E16. rewrite E16. done.
Qed.

(** No address is both loopback and in a private range. *)
Lemma IsLoopback_not_IsPrivate (ip : IP) :
  IsLoopback ip = true → IsPrivate ip = false.
Proof.
  unfold IsLoopback, IsPrivate. destruct (To4 ip) as [ip4|].
  - intros ->%N.eqb_eq. reflexivity.
  - intros ->%bool_decide_eq_true. reflexivity.
Qed.

Lemma in_scope_unique (ip : IP) (s1 s2 : Scope) :
  in_scope s1 ip = true → in_scope s2 ip = true → s1 = s2.
Proof.
  destruct s1, s2; simpl; try done;
    destruct (IsLoopback ip), (IsPrivate ip); simpl; done.
Qed.

Lemma in_scope_exists (ip : IP) : ∃ s, in_scope s ip = true.
Proof.
  destruct (IsLoopback ip) eqn:El; [by exists Loopback|].
  destruct (IsPrivate ip) eqn:Ep.
  - exists Private. simpl. by rewrite El, Ep.
  - exists Public. simpl. by rewrite El, Ep.
Qed.

Lemma filter_andb {A} (p q : A → bool) (l : list A) :
  List.filter (fun a => p a && q a) l = List.filter q (List.filter p l).
Proof.
  induction l as [|a l IH]; [done|]. simpl.
  destruct (p a); simpl; [|done]. destruct (q a); by rewrite IH.
Qed.

Section ResolveFacts.
Context {W R : Type} `{!Writer W, !Resolver R}.
Implicit Types (mp : ipSubMap W) (r : R) (ip : IP) (s : Scope).

Lemma resolve_ip_skipped mp host ip :
  skipped mp ip = true → resolve_ip host mp ip = mp.
Proof.
  unfold skipped, isIPv4, isIPv6, resolve_ip.
  destruct (is_nil (To4 ip)), (ipv4 mp), (ipv6 mp); simpl; done.
Qed.

Lemma resolve_ip_accepted mp host ip :
  skipped mp ip = false → resolve_ip host mp ip = route host mp ip.
Proof.
  unfold skipped, isIPv4, isIPv6, resolve_ip.
  destruct (is_nil (To4 ip)), (ipv4 mp), (ipv6 mp); simpl; done.
Qed.

Lemma route_report mp host ip s :
  report s (route host mp ip)
  = if in_scope s ip
    then fragment_append (report s mp) (IP_String ip) host
    else report s mp.
Proof.
  unfold route.
  destruct s, (IsLoopback ip) eqn:El, (IsPrivate ip) eqn:Ep; simpl;
    rewrite ?El, ?Ep; simpl; try done.
Qed.

Lemma route_flags mp host ip :
  ipv4 (route host mp ip) = ipv4 mp ∧ ipv6 (route host mp ip) = ipv6 mp.
Proof.
  unfold route. by destruct (IsLoopback ip), (IsPrivate ip).
Qed.

Lemma resolve_ip_flags mp host ip :
  ipv4 (resolve_ip host mp ip) = ipv4 mp
  ∧ ipv6 (resolve_ip host mp ip) = ipv6 mp.
Proof.
  destruct (skipped mp ip) eqn:E.
  - by rewrite resolve_ip_skipped.
  - rewrite resolve_ip_accepted by done. apply route_flags.
Qed.

Lemma skipped_flags mp mp' ip :
  ipv4 mp' = ipv4 mp → ipv6 mp' = ipv6 mp → skipped mp' ip = skipped mp ip.
Proof. unfold skipped. by intros -> ->. Qed.

Lemma resolve_ip_report mp host ip s :
  report s (resolve_ip host mp ip)
  = if negb (skipped mp ip) && in_scope s ip
    then fragment_append (report s mp) (IP_String ip) host
    else report s mp.
Proof.
  destruct (skipped mp ip) eqn:E; simpl.
  - by rewrite resolve_ip_skipped.
  - rewrite resolve_ip_accepted by done. apply route_report.
Qed.

(** The loop of [resolve] seen from one report: it receives, in order,
    the accepted addresses of its scope. *)
Lemma resolve_loop_report mp host ips s :
  report s (foldl (resolve_ip host) mp ips)
  = record (report s mp) host
      (List.filter (fun ip => negb (skipped mp ip) && in_scope s ip) ips).
Proof.
  revert mp. induction ips as [|ip ips IH]; intros mp; [done|].
  simpl. rewrite IH.
  destruct (resolve_ip_flags mp host ip) as [H4 H6].
  rewrite (List.filter_ext _
             (fun ip => negb (skipped mp ip) && in_scope s ip))
    by (intros a; by rewrite (skipped_flags mp)).
  rewrite resolve_ip_report.
  by destruct (negb (skipped mp ip) && in_scope s ip).
Qed.

Lemma resolve_loop_flags mp host ips :
  ipv4 (foldl (resolve_ip host) mp ips) = ipv4 mp
  ∧ ipv6 (foldl (resolve_ip host) mp ips) = ipv6 mp.
Proof.
  revert mp. induction ips as [|ip ips IH]; intros mp; [done|].
  simpl. destruct (IH (resolve_ip host mp ip)) as [-> ->].
  apply resolve_ip_flags.
Qed.

(** The loop ignores the addresses the version filter skips. *)
Lemma resolve_loop_filter mp host ips :
  foldl (resolve_ip host) mp ips
  = foldl (resolve_ip host) mp
      (List.filter (fun ip => negb (skipped mp ip)) ips).
Proof.
  revert mp. induction ips as [|ip ips IH]; intros mp; [done|].
  simpl. destruct (skipped mp ip) eqn:E; simpl.
  - rewrite resolve_ip_skipped by done. apply IH.
  - rewrite IH. destruct (resolve_ip_flags mp host ip) as [H4 H6].
    by rewrite (List.filter_ext _ (fun ip => negb (skipped mp ip)))
      by (intros a; by rewrite (skipped_flags mp)).
Qed.

(** C3: after a successful resolution every report has received, in
    order, exactly the accepted addresses of its own scope, where the
    scope is loopback for a loopback address whatever else holds of it,
    private for a private address that is not loopback, and public
    otherwise; every address has exactly one scope. *)
Theorem C3_scope_precedence r r' mp host ips :
  LookupIP r host = (r', (ips, None)) →
  ∃ mp',
    ipSubMap_resolve r mp host = (r', mp', None)
    ∧ (∀ s, report s mp'
            = record (report s mp) host
                (List.filter
                   (fun ip => negb (skipped mp ip) && in_scope s ip) ips))
    ∧ (∀ ip, in_scope Loopback ip = IsLoopback ip)
    ∧ (∀ ip, IsLoopback ip = true →
             in_scope Private ip = false ∧ in_scope Public ip = false)
    ∧ (∀ ip, ∃ s, in_scope s ip = true
                  ∧ ∀ s', in_scope s' ip = true → s' = s).
Proof.
  intros Hl. eexists. split.
  { unfold ipSubMap_resolve. rewrite Hl. reflexivity. }
  split; [intros s; apply resolve_loop_report|].
  split; [done|]. split.
  - intros ip Hip. simpl. rewrite Hip. by rewrite andb_false_r.
  - intros ip. destruct (in_scope_exists ip) as [s Hs]. exists s.
    split; [done|]. intros s' Hs'. by apply (in_scope_unique ip).
Qed.

(** C4: after a successful resolution the addresses the version filter
    skips leave no trace: the reports are those the remaining addresses
    alone would have produced, no report receives a skipped address, no
    error is returned, and a host whose addresses are all skipped leaves
    the reports as they were. *)
Theorem C4_version_filter r r' mp host ips :
  LookupIP r host = (r', (ips, None)) →
  ipSubMap_resolve r mp host
  = (r', foldl (resolve_ip host) mp
           (List.filter (fun ip => negb (skipped mp ip)) ips), None)
  ∧ (∀ ip, skipped mp ip = true → resolve_ip host mp ip = mp)
  ∧ (∀ s, report s (ipSubMap_resolve r mp host).1.2
          = record (report s mp) host
              (List.filter (in_scope s)
                 (List.filter (fun ip => negb (skipped mp ip)) ips)))
  ∧ (Forall (fun ip => skipped mp ip = true) ips →
     ipSubMap_resolve r mp host = (r', mp, None)).
Proof.
  intros Hl.
  assert (ipSubMap_resolve r mp host
          = (r', foldl (resolve_ip host) mp ips, None)) as Hres.
  { unfold ipSubMap_resolve. by rewrite Hl. }
  split; [by rewrite Hres, <-resolve_loop_filter|].
  split; [intros ip; apply resolve_ip_skipped|]. split.
  - intros s. rewrite Hres; simpl. rewrite resolve_loop_report.
    f_equal. apply filter_andb.
  - intros Hall. rewrite Hres. f_equal. f_equal.
    clear Hl Hres. induction Hall as [|ip ips Hip _ IH]; [done|].
    simpl. by rewrite resolve_ip_skipped.
Qed.

(** C10: the version of an address is decided by its having a 4-byte
    form. An address that has one is skipped whenever include-v4 is off
    and kept whenever include-v4 is on, whatever include-v6 says, and the
    key it is recorded under is the dotted-decimal text of that form. *)
Theorem C10_mapped_is_IPv4 mp host ip ip4 :
  To4 ip = Some ip4 →
  (ipv4 mp = false → resolve_ip host mp ip = mp)
  ∧ (ipv4 mp = true →
     ∀ s, report s (resolve_ip host mp ip)
          = if in_scope s ip
            then fragment_append (report s mp) (string4 ip4) host
            else report s mp)
  ∧ IP_String ip = string4 ip4
  ∧ length ip4 = 4%nat.
Proof.
  intros H4. split; [|split; [|split]].
  - intros Hv4. apply resolve_ip_skipped.
    unfold skipped, isIPv4. by rewrite H4, Hv4.
  - intros Hv4 s. rewrite resolve_ip_report.
    rewrite (IP_String_To4 _ _ H4).
    unfold skipped, isIPv4, isIPv6. by rewrite H4, Hv4.
  - by apply IP_String_To4.
  - by apply (To4_length ip).
Qed.
End ResolveFacts.

(** ** bufio.Scanner *)

Lemma string_app_assoc (a b c : string) : (a +:+ b) +:+ c = a +:+ (b +:+ c).
Proof.
  induction a as [|x a IH]; [done|].
  change (String x ((a +:+ b) +:+ c) = String x (a +:+ (b +:+ c))).
  by rewrite IH.
Qed.

Lemma string_length_0 (a : string) : (String.length a =? 0)%nat = true → a = "".
Proof. by destruct a. Qed.

(** Splitting loses nothing: the pieces, each followed by a newline, give
    the text back, up to the newline a last piece may lack. *)
Lemma raw_lines_unlines (acc s : string) :
  unlines (raw_lines acc s) = acc +:+ s
  ∨ unlines (raw_lines acc s) = acc +:+ s +:+ LF.
Proof.
  revert acc. induction s as [|c s IH]; intros acc; simpl.
  - destruct (String.length acc =? 0)%nat eqn:E.
    + apply string_length_0 in E as ->. by left.
    + right. reflexivity.
  - destruct (Ascii.eqb c "010") eqn:E.
    + apply Ascii.eqb_eq in E as ->. simpl.
      destruct (IH "") as [-> | ->]; [by left|by right].
    + destruct (IH (acc +:+ String c "")) as [-> | ->]; [left|right];
        by rewrite string_app_assoc.
Qed.

(** [dropCR] removes nothing but one carriage return at the end. *)
Lemma dropCR_spec (l : string) :
  dropCR l = l ∨ l = dropCR l +:+ String CR "".
Proof.
  induction l as [|c l IH]; [by left|]. destruct l as [|c' l].
  - simpl. destruct (Ascii.eqb c CR) eqn:E; [|by left].
    apply Ascii.eqb_eq in E as ->. by right.
  - change (dropCR (String c (String c' l)))
      with (String c (dropCR (String c' l))).
    destruct IH as [-> | IH]; [by left|]. right.
    change (String c (String c' l)
            = String c (dropCR (String c' l) +:+ String CR "")).
    by rewrite <-IH.
Qed.

Lemma scan_lines_short (raw : list string) (failure : option error) :
  Forall (fun l => (N.of_nat (String.length l) < MaxScanTokenSize)%N) raw →
  scan_lines raw failure = (map dropCR raw, failure).
Proof.
  induction 1 as [|l raw Hl _ IH]; [done|]. simpl.
  apply N.leb_gt in Hl. by rewrite Hl, IH.
Qed.

(** ** ipSubMap.enumerate *)

Lemma mentions_ResolutionError (host : string) (cause : error) :
  mentions host (ResolutionError host cause) = true.
Proof. simpl. by rewrite String.eqb_refl. Qed.

Lemma failures_app tr1 tr2 : failures (tr1 ++ tr2) = failures tr1 ++ failures tr2.
Proof. unfold failures. by rewrite flat_map_app. Qed.

Section EnumerateFacts.
Context {W R : Type} `{!Writer W, !Resolver R}.
Implicit Types (mp : ipSubMap W) (r : R) (rd : Reader).

Lemma answers_hosts r hosts : (answers r hosts).2.*1 = hosts.
Proof.
  revert r. induction hosts as [|h hosts IH]; intros r; [done|]. simpl.
  destruct (LookupIP r h) as [r1 a]. specialize (IH r1).
  destruct (answers r1 hosts) as [r2 tr]. simpl in *.
  f_equal. exact IH.
Qed.

(** The loop is one resolution per non-empty line, in order, whatever
    the outcome of the resolutions before. *)
Lemma enumerate_loop_answers r mp errs lines :
  enumerate_loop r mp errs lines
  = ((answers r (List.filter nonempty lines)).1,
     foldl record_answer mp (answers r (List.filter nonempty lines)).2,
     errs ++ failures (answers r (List.filter nonempty lines)).2).
Proof.
  revert r mp errs. induction lines as [|l lines IH]; intros r mp errs.
  { simpl. by rewrite app_nil_r. }
  cbn [enumerate_loop List.filter].
  replace (nonempty l) with (negb (String.length l =? 0)%nat) by done.
  destruct (String.length l =? 0)%nat; cbn [negb answers]; [apply IH|].
  unfold ipSubMap_resolve.
  destruct (LookupIP r l) as [r1 [ips [e|]]]; rewrite IH;
    destruct (answers r1 (List.filter nonempty lines)) as [r2 tr]; simpl.
  - unfold failures at 2. simpl. by rewrite <-app_assoc.
  - done.
Qed.

Lemma enumerate_answers r mp rd :
  ipSubMap_enumerate r mp rd
  = let hosts := List.filter nonempty (Scanner rd).1 in
    ((answers r hosts).1,
     foldl record_answer mp (answers r hosts).2,
     match (Scanner rd).2 with
     | Some cause => Some (InputReadError cause)
     | None => errors_Join (failures (answers r hosts).2)
     end).
Proof.
  unfold ipSubMap_enumerate. destruct (Scanner rd) as [lines scanErr].
  rewrite enumerate_loop_answers. simpl. by destruct scanErr.
Qed.

Lemma failures_mention tr host ips cause :
  (host, (ips, Some cause)) ∈ tr →
  ∃ err, errors_Join (failures tr) = Some err ∧ mentions host err = true.
Proof.
  intros Hin.
  assert (In (ResolutionError host cause) (failures tr)) as Hf.
  { apply in_flat_map. exists (host, (ips, Some cause)).
    split; [by apply list_elem_of_In|]. by left. }
  destruct (failures tr) as [|e errs] eqn:E; [done|].
  eexists. split; [done|]. cbn [mentions].
  apply existsb_exists. eauto using mentions_ResolutionError.
Qed.

(** C5, as amended: when the input is read to its end, [enumerate] asks the resolver
    for every non-empty line, in input order, whatever the outcome of
    the lines before; a failed resolution leaves the reports as they
    are and adds its error to the list, in the order met; the others are
    recorded; the returned error joins these errors and mentions every
    host that failed. *)
Theorem C5_enumerate_collects r mp rd lines :
  Scanner rd = (lines, None) →
  let hosts := List.filter nonempty lines in
  let tr := (answers r hosts).2 in
  ipSubMap_enumerate r mp rd
  = ((answers r hosts).1, foldl record_answer mp tr,
     errors_Join (failures tr))
  ∧ tr.*1 = hosts
  ∧ (∀ tr1 a tr2, tr = tr1 ++ a :: tr2 →
       failures tr = failures tr1 ++ failure_of a ++ failures tr2
       ∧ foldl record_answer mp tr
         = foldl record_answer
             (record_answer (foldl record_answer mp tr1) a) tr2)
  ∧ (∀ mp' host ips cause,
       record_answer mp' (host, (ips, Some cause)) = mp'
       ∧ failure_of (host, (ips, Some cause))
         = [ResolutionError host cause])
  ∧ (∀ host ips cause, (host, (ips, Some cause)) ∈ tr →
       ∃ err, (ipSubMap_enumerate r mp rd).2 = Some err
              ∧ mentions host err = true).
Proof.
  intros Hs hosts tr.
  assert (ipSubMap_enumerate r mp rd
          = ((answers r hosts).1, foldl record_answer mp tr,
             errors_Join (failures tr))) as Heq.
  { rewrite enumerate_answers, Hs. done. }
  split; [done|]. split; [apply answers_hosts|]. split; [|split].
  - intros tr1 a tr2 ->. split.
    + by rewrite failures_app.
    + by rewrite foldl_app.
  - done.
  - intros host ips cause Hin. rewrite Heq. simpl.
    by apply (failures_mention tr host ips cause).
Qed.

(** Whatever was collected, a failed read is the only error returned. *)
Lemma enumerate_read_failure r mp rd lines cause :
  Scanner rd = (lines, Some cause) →
  (ipSubMap_enumerate r mp rd).2 = Some (InputReadError cause).
Proof. intros Hs. rewrite enumerate_answers, Hs. done. Qed.

End EnumerateFacts.

Section HostsAsked.
Context {W R : Type} `{!Writer W, !Resolver R}.
Implicit Types (mp : ipSubMap W) (r : R) (rd : Reader).

Lemma answers_log r (log hosts : list string) :
  (answers (r, log) hosts).1.2 = log ++ hosts.
Proof.
  revert r log. induction hosts as [|h hosts IH]; intros r log; simpl.
  { by rewrite app_nil_r. }
  unfold LookupIP at 1, Logged_Resolver. simpl.
  destruct (LookupIP r h) as [r1 a]. specialize (IH r1 (log ++ [h])).
  destruct (answers (r1, log ++ [h]) hosts) as [r2 tr]. simpl in *.
  by rewrite IH, <-app_assoc.
Qed.

(** C8, as amended: the hosts the resolver is asked for are the lines of the input
    that are not empty, each once and in order, a line being the text
    between two newlines less one carriage return at its end; nothing
    else is removed, so a line of blanks is asked for as it is. This is
    for an input whose lines fit the buffer of the scanner. *)
Theorem C8_hosts_are_nonempty_lines r (log : list string) mp rd :
  Forall (fun l => (N.of_nat (String.length l) < MaxScanTokenSize)%N)
    (raw_lines "" (data rd)) →
  let lines := map dropCR (raw_lines "" (data rd)) in
  (ipSubMap_enumerate (r, log) mp rd).1.1.2
  = log ++ List.filter nonempty lines
  ∧ (ipSubMap_enumerate r mp rd).2
    = match failure rd with
      | Some cause => Some (InputReadError cause)
      | None =>
          errors_Join
            (failures (answers r (List.filter nonempty lines)).2)
      end
  ∧ (unlines (raw_lines "" (data rd)) = data rd
     ∨ unlines (raw_lines "" (data rd)) = data rd +:+ LF)
  ∧ (∀ l, dropCR l = l ∨ l = dropCR l +:+ String CR "")
  ∧ (∀ l, nonempty l = true ↔ l ≠ "").
Proof.
  intros Hshort lines.
  assert (Scanner rd = (lines, failure rd)) as Hs.
  { unfold Scanner. by apply scan_lines_short. }
  split; [|split; [|split; [|split]]].
  - rewrite enumerate_answers, Hs. simpl. apply answers_log.
  - rewrite enumerate_answers, Hs. done.
  - apply (raw_lines_unlines "").
  - apply dropCR_spec.
  - intros l. by destruct l.
Qed.
End HostsAsked.

(** C2: on [broken_input] the resolution of bad.invalid fails and its
    error is collected, then the read fails; [enumerate] returns the read
    failure alone, and the collected resolution error is in it nowhere.
    On the same lines read to their end, the error is returned. *)
Theorem C2_read_failure_drops_resolution_errors :
  failures (answers sample_table ["good.example"; "bad.invalid"]).2
  = [ResolutionError "bad.invalid" (External "no such host")]
  ∧ Scanner broken_input
    = (["good.example"; "bad.invalid"],
       Some (External "read: input/output error"))
  ∧ (ipSubMap_enumerate sample_table (sample_mapper true true)
       broken_input).2
    = Some (InputReadError (External "read: input/output error"))
  ∧ mentions "bad.invalid"
      (InputReadError (External "read: input/output error")) = false
  ∧ surfaces "no such host"
      (InputReadError (External "read: input/output error")) = false
  ∧ (ipSubMap_enumerate sample_table (sample_mapper true true)
       {| data := data broken_input; failure := None |}).2
    = Some (Joined [ResolutionError "bad.invalid" (External "no such host")]).
Proof. vm_compute. repeat split. Qed.

(** ** ipSubMap.write *)

Section WriteFacts.
Context {W : Type} `{!Writer W}.
Implicit Types (mp : ipSubMap W) (f : fragment W) (w : W) (s : Scope).

Lemma fragment_write_abort f w fm order keys1 k keys2 w1 w2 cause :
  f = {| out := Some w; m := Some fm |} →
  sort_Strings order = keys1 ++ k :: keys2 →
  write_all w (map (line fm) keys1) = Some w1 →
  Write w1 (line fm k) = (w2, Some cause) →
  fragment_write order f = ({| out := Some w2; m := Some fm |}, Some cause).
Proof.
  intros -> Hsort Hall Hfail. unfold fragment_write; simpl.
  by rewrite Hsort, (write_keys_abort w w1 w2 cause).
Qed.

(** Each report is written as it would be alone, and the errors are
    joined. *)
Lemma ipSubMap_write_reports mp orders :
  ipSubMap_write orders mp
  = ({| private :=
          (fragment_write (order_of Private orders) (private mp)).1;
        public :=
          (fragment_write (order_of Public orders) (public mp)).1;
        loopback :=
          (fragment_write (order_of Loopback orders) (loopback mp)).1;
        ipv4 := ipv4 mp; ipv6 := ipv6 mp |},
     errors_Join (write_errors orders mp)).
Proof.
  destruct orders as [[oPrivate oPublic] oLoopback].
  unfold ipSubMap_write, write_errors; simpl.
  destruct (fragment_write oPrivate (private mp)) as [f1 [e1|]];
    destruct (fragment_write oPublic (public mp)) as [f2 [e2|]];
    destruct (fragment_write oLoopback (loopback mp)) as [f3 [e3|]];
    reflexivity.
Qed.

(** C6: when a write of the report of scope [s] fails at the key [k],
    the sink of that report is left as the failing write left it, so
    the keys after [k] are not written; the two other reports are
    written as they would be alone; the returned error joins the error
    of every report that failed, each tagged with the name of its scope,
    the one of [s] among them. *)
Theorem C6_write_phase mp orders s w fm keys1 k keys2 w1 w2 cause :
  report s mp = {| out := Some w; m := Some fm |} →
  sort_Strings (order_of s orders) = keys1 ++ k :: keys2 →
  write_all w (map (line fm) keys1) = Some w1 →
  Write w1 (line fm k) = (w2, Some cause) →
  ∃ mp' errs,
    ipSubMap_write orders mp = (mp', Some (Joined errs))
    ∧ report s mp' = {| out := Some w2; m := Some fm |}
    ∧ WriteError s cause ∈ errs
    ∧ errs = write_errors orders mp
    ∧ ∀ s', s' ≠ s →
        report s' mp'
        = (fragment_write (order_of s' orders) (report s' mp)).1.
Proof.
  intros Hrep Hsort Hall Hfail.
  pose proof (fragment_write_abort _ _ _ _ _ _ _ _ _ _
                Hrep Hsort Hall Hfail) as Hs.
  rewrite ipSubMap_write_reports.
  assert (WriteError s cause ∈ write_errors orders mp) as Hin.
  { unfold write_errors. destruct s; cbn [report] in Hs; rewrite Hs;
      cbn [snd tagged]; rewrite ?elem_of_app, ?elem_of_cons; auto. }
  destruct (write_errors orders mp) as [|e es] eqn:E.
  { by apply elem_of_nil in Hin. }
  eexists _, _. split; [reflexivity|].
  split; [destruct s; cbn [report] in *; by rewrite Hs|].
  split; [done|]. split; [done|].
  intros s' _. by destruct s'.
Qed.
End WriteFacts.

(** * The statements at the sample data *)

Example sort_Strings_bytewise :
  sort_Strings ["2.2.2.2"; "10.0.0.2"] = ["10.0.0.2"; "2.2.2.2"].
Proof. reflexivity. Qed.

Example ip_127_0_0_1_scope :
  in_scope Loopback ip_127_0_0_1 = true
  ∧ in_scope Private ip_127_0_0_1 = false
  ∧ in_scope Public ip_127_0_0_1 = false.
Proof. by vm_compute. Qed.

Example ip_mapped_text :
  To4 ip_mapped_192_0_2_1 = Some [xc0; x00; x02; x01]
  ∧ IP_String ip_mapped_192_0_2_1 = "192.0.2.1".
Proof. by vm_compute. Qed.

Ltac by_computation := apply (bool_decide_unpack _); vm_compute; exact I.

Lemma C1_write_sorted_lines_witness :
  range_order sample_map ["2.2.2.2"; "1.1.1.1"]
  ∧ fragment_write ["2.2.2.2"; "1.1.1.1"]
      {| out := Some ("" : Buffer); m := Some sample_map |}
    = ({| out := Some ("1.1.1.1 a,b" +:+ LF +:+ "2.2.2.2 a" +:+ LF);
          m := Some sample_map |}, None)
  ∧ fragment_write ["2.2.2.2"; "10.0.0.2"]
      {| out := Some ("" : Buffer); m := Some numeric_map |}
    = ({| out := Some ("10.0.0.2 b" +:+ LF +:+ "2.2.2.2 a" +:+ LF);
          m := Some numeric_map |}, None).
Proof.
  assert (range_order sample_map ["2.2.2.2"; "1.1.1.1"]) as Hr
    by by_computation.
  assert (range_order numeric_map ["2.2.2.2"; "10.0.0.2"]) as Hn
    by by_computation.
  split; [exact Hr|]. split.
  - apply (C1_write_sorted_lines (W := Buffer) sample_map
             ["2.2.2.2"; "1.1.1.1"] "" _ Hr).
    vm_compute. reflexivity.
  - apply (C1_write_sorted_lines (W := Buffer) numeric_map
             ["2.2.2.2"; "10.0.0.2"] "" _ Hn).
    vm_compute. reflexivity.
Defined.

Lemma C9_write_deterministic_witness :
  fragment_write ["2.2.2.2"; "1.1.1.1"]
    {| out := Some ("" : Buffer); m := Some sample_map |}
  = fragment_write ["1.1.1.1"; "2.2.2.2"]
      {| out := Some ("" : Buffer); m := Some sample_map |}.
Proof.
  apply (C9_write_deterministic (W := Buffer) _ sample_map);
    [reflexivity | by_computation | by_computation].
Defined.

Lemma C7_inert_reports_witness :
  paired (new_fragment (W := Buffer) None)
  ∧ fragment_append (new_fragment (W := Buffer) None) "1.1.1.1" "example.com"
    = new_fragment None
  ∧ fragment_write [] (new_fragment (W := Buffer) None)
    = (new_fragment None, None)
  ∧ fragment_write [] (new_fragment (Some ("" : Buffer)))
    = (new_fragment (Some ""), None).
Proof.
  assert (paired (new_fragment (W := Buffer) None)) as Hp by done.
  destruct (C7_inert_reports (new_fragment (W := Buffer) None)
              "1.1.1.1" "example.com" []) as (_ & H2 & _ & H4 & _ & _).
  destruct (C7_inert_reports (new_fragment (Some ("" : Buffer)))
              "1.1.1.1" "example.com" []) as (_ & _ & _ & _ & _ & H6).
  split; [exact Hp|].
  split; [apply H2; [exact Hp | reflexivity]|].
  split; [apply H4; reflexivity|].
  apply H6; [reflexivity | by_computation].
Defined.

Lemma C3_scope_precedence_witness :
  LookupIP sample_table "all.example"
  = (sample_table,
     ([ip_127_0_0_1; ip_10_0_0_5; ip_93_184_216_34;
       IPv6loopback; ip_fd00__1; ip_2001_db8__1], None))
  ∧ ∃ mp',
      ipSubMap_resolve sample_table (sample_mapper true true) "all.example"
      = (sample_table, mp', None)
      ∧ m (loopback mp')
        = Some (<["::1" := ["all.example"]]>
                 (<["127.0.0.1" := ["all.example"]]> ∅))
      ∧ m (private mp')
        = Some (<["fd00::1" := ["all.example"]]>
                 (<["10.0.0.5" := ["all.example"]]> ∅))
      ∧ m (public mp')
        = Some (<["2001:db8::1" := ["all.example"]]>
                 (<["93.184.216.34" := ["all.example"]]> ∅)).
Proof.
  split; [reflexivity|].
  destruct (C3_scope_precedence (W := Buffer) sample_table sample_table
              (sample_mapper true true) "all.example"
              [ip_127_0_0_1; ip_10_0_0_5; ip_93_184_216_34;
               IPv6loopback; ip_fd00__1; ip_2001_db8__1] eq_refl)
    as (mp' & Hres & Hrep & _).
  exists mp'. split; [exact Hres|].
  pose proof (Hrep Loopback) as Hl. pose proof (Hrep Private) as Hp.
  pose proof (Hrep Public) as Hu. cbn [report] in Hl, Hp, Hu.
  rewrite Hl, Hp, Hu. vm_compute. repeat split.
Defined.

Lemma C4_version_filter_witness :
  LookupIP sample_table "dual.example"
  = (sample_table, ([ip_93_184_216_34; ip_2001_db8__1], None))
  ∧ ipSubMap_resolve sample_table (sample_mapper true false) "dual.example"
    = (sample_table,
       {| private := empty_report "";
          public :=
            {| out := Some ("" : Buffer);
               m := Some (<["93.184.216.34" := ["dual.example"]]> ∅) |};
          loopback := empty_report "";
          ipv4 := true; ipv6 := false |},
       None).
Proof.
  split; [reflexivity|].
  destruct (C4_version_filter (W := Buffer) sample_table sample_table
              (sample_mapper true false) "dual.example"
              [ip_93_184_216_34; ip_2001_db8__1] eq_refl)
    as [Hres _].
  rewrite Hres. vm_compute. reflexivity.
Defined.

Lemma C10_mapped_is_IPv4_witness :
  To4 ip_mapped_192_0_2_1 = Some [xc0; x00; x02; x01]
  ∧ resolve_ip "mapped.example" (sample_mapper false true)
      ip_mapped_192_0_2_1
    = sample_mapper false true
  ∧ m (public (resolve_ip "mapped.example" (sample_mapper true false)
                 ip_mapped_192_0_2_1))
    = Some (<["192.0.2.1" := ["mapped.example"]]> ∅).
Proof.
  split; [reflexivity|].
  destruct (C10_mapped_is_IPv4 (sample_mapper false true) "mapped.example"
              ip_mapped_192_0_2_1 [xc0; x00; x02; x01] eq_refl)
    as (Hoff & _).
  destruct (C10_mapped_is_IPv4 (sample_mapper true false) "mapped.example"
              ip_mapped_192_0_2_1 [xc0; x00; x02; x01] eq_refl)
    as (_ & Hon & _).
  split; [apply Hoff; reflexivity|].
  pose proof (Hon eq_refl Public) as Hu. cbn [report] in Hu.
  rewrite Hu. vm_compute. reflexivity.
Defined.

Lemma C5_enumerate_collects_witness :
  Scanner partial_input
  = (["good.example"; "bad.invalid"; ""; "good2.example"], None)
  ∧ ipSubMap_enumerate sample_table (sample_mapper true true) partial_input
    = (sample_table,
       {| private :=
            {| out := Some ("" : Buffer);
               m := Some (<["10.0.0.5" := ["good2.example"]]> ∅) |};
          public :=
            {| out := Some ("" : Buffer);
               m := Some (<["93.184.216.34" :=
                            ["good.example"; "good2.example"]]> ∅) |};
          loopback := empty_report "";
          ipv4 := true; ipv6 := true |},
       Some (Joined [ResolutionError "bad.invalid"
                       (External "no such host")])).
Proof.
  split; [reflexivity|].
  pose proof (C5_enumerate_collects (W := Buffer) sample_table
                (sample_mapper true true) partial_input
                ["good.example"; "bad.invalid"; ""; "good2.example"]
                eq_refl) as H.
  cbv zeta in H. destruct H as [Hres _].
  rewrite Hres. vm_compute. reflexivity.
Defined.

Lemma C8_hosts_are_nonempty_lines_witness :
  raw_lines "" (data blank_input)
  = ["a.example"; ""; " " +:+ String CR ""; String CR ""; "tail"]
  ∧ (ipSubMap_enumerate (sample_table, []) (sample_mapper true true)
       blank_input).1.1.2
    = ["a.example"; " "; "tail"].
Proof.
  split; [reflexivity|].
  pose proof (C8_hosts_are_nonempty_lines (W := Buffer) sample_table []
                (sample_mapper true true) blank_input) as H.
  cbv zeta in H. destruct H as [Hlog _]; [by_computation|].
  rewrite Hlog. vm_compute. reflexivity.
Defined.

Lemma C6_write_phase_witness :
  ∃ mp',
    ipSubMap_write limited_orders limited_mapper
    = (mp',
       Some (Joined [WriteError Private (External "no space left on device");
                     WriteError Public (External "no space left on device")]))
    ∧ out (private mp')
      = Some {| content := "10.0.0.1 a" +:+ LF; room := 0 |}
    ∧ out (public mp') = Some {| content := ""; room := 0 |}
    ∧ out (loopback mp')
      = Some {| content := "127.0.0.1 e" +:+ LF; room := 4 |}.
Proof.
  destruct (C6_write_phase limited_mapper limited_orders Private
              {| content := ""; room := 1 |}
              (<["10.0.0.1" := ["a"]]> (<["10.0.0.2" := ["b"]]>
                 (<["10.0.0.3" := ["c"]]> ∅)))
              ["10.0.0.1"] "10.0.0.2" ["10.0.0.3"]
              {| content := "10.0.0.1 a" +:+ LF; room := 0 |}
              {| content := "10.0.0.1 a" +:+ LF; room := 0 |}
              (External "no space left on device"))
    as (mp' & errs & Hw & Hp & _ & Herrs & Hother);
    [reflexivity | vm_compute; reflexivity | vm_compute; reflexivity
    | vm_compute; reflexivity |].
  exists mp'. rewrite Hw, Herrs.
  pose proof (Hother Public) as Hu. pose proof (Hother Loopback) as Hl.
  cbn [report] in Hp, Hu, Hl. rewrite Hp, Hu, Hl by done.
  vm_compute. repeat split.
Defined.

(** * Further properties *)

(** ** Flags.Validate *)

Lemma eqb_empty (s : string) : String.eqb s "" = true ↔ s = "".
Proof. apply String.eqb_eq. Qed.

Lemma eqb_nonempty (s : string) : negb (String.eqb s "") = true ↔ s ≠ "".
Proof. rewrite negb_true_iff. apply String.eqb_neq. Qed.

(** [allEmptyStrings] holds exactly when the first string and every other
    one is empty. *)
Theorem allEmptyStrings_iff (first : string) (others : list string) :
  allEmptyStrings first others = true
  ↔ first = "" ∧ Forall (fun s => s = "") others.
Proof.
  unfold allEmptyStrings. destruct (String.eqb_spec first "") as [->|Hne];
    simpl; [|split; [done|by intros [? _]]].
  induction others as [|s others IH]; simpl.
  - split; [by split|done].
  - destruct (String.eqb_spec s "") as [->|Hs]; simpl.
    + rewrite IH. split; intros [? H]; split; try done.
      * by constructor.
      * by inversion H.
    + split; [done|]. intros [_ H]. by inversion H.
Qed.

(** The test [Validate] makes of one output path. *)
Lemma output_check_iff (Stat : string → StatResult) (p : string) :
  negb (String.eqb p "") && negb (is_ErrNotExist (Stat p)) = false
  ↔ (p ≠ "" → is_ErrNotExist (Stat p) = true).
Proof.
  destruct (String.eqb_spec p "") as [->|Hne]; simpl; [by split|].
  destruct (is_ErrNotExist (Stat p)); simpl; [by split|].
  split; [done|]. intros H. by specialize (H Hne).
Qed.

Lemma allEmptyStrings_outputs (f : Flags.t) :
  allEmptyStrings (Flags.outputPrivate f)
    [Flags.outputPublic f; Flags.outputLoopback f] = false
  ↔ ∃ p, p ∈ outputs f ∧ p ≠ "".
Proof.
  rewrite <-not_true_iff_false, allEmptyStrings_iff, !Forall_cons.
  unfold outputs. split.
  - intros H.
    destruct (decide (Flags.outputPrivate f = "")) as [E1|E1];
      [|exists (Flags.outputPrivate f); set_solver].
    destruct (decide (Flags.outputPublic f = "")) as [E2|E2];
      [|exists (Flags.outputPublic f); set_solver].
    destruct (decide (Flags.outputLoopback f = "")) as [E3|E3];
      [|exists (Flags.outputLoopback f); set_solver].
    destruct H. by repeat split.
  - intros (p & Hp & Hne) (H1 & H2 & H3 & _).
    rewrite !elem_of_cons, elem_of_nil in Hp.
    destruct Hp as [->|[->|[->|[]]]]; done.
Qed.

(** [Validate] accepts the flags exactly when the input file exists and is
    not a directory, an output path is given, every output path given
    names nothing that exists, and an IP version is on. *)
Theorem Validate_accepts_iff (Stat : string → StatResult) (f : Flags.t) :
  Flags_Validate Stat f = None
  ↔ Stat (Flags.inputFile f) = FileInfo false
    ∧ (∃ p, p ∈ outputs f ∧ p ≠ "")
    ∧ (∀ p, p ∈ outputs f → p ≠ "" → is_ErrNotExist (Stat p) = true)
    ∧ (Flags.ipv4 f = true ∨ Flags.ipv6 f = true).
Proof.
  unfold Flags_Validate.
  destruct (Stat (Flags.inputFile f)) as [[|]| |];
    try (split; [done|by intros [? _]]).
  destruct (allEmptyStrings _ _) eqn:Hall.
  { split; [done|]. intros (_ & Hsome%allEmptyStrings_outputs & _).
    congruence. }
  apply allEmptyStrings_outputs in Hall.
  pose proof (output_check_iff Stat (Flags.outputPrivate f)) as C1.
  pose proof (output_check_iff Stat (Flags.outputPublic f)) as C2.
  pose proof (output_check_iff Stat (Flags.outputLoopback f)) as C3.
  assert (∀ P : string → Prop,
            (∀ p, p ∈ outputs f → P p)
            ↔ P (Flags.outputPrivate f) ∧ P (Flags.outputPublic f)
              ∧ P (Flags.outputLoopback f)) as Hall3.
  { intros P. unfold outputs. split.
    - intros H. repeat split; apply H; rewrite !elem_of_cons; auto.
    - intros (H1 & H2 & H3) p Hp.
      rewrite !elem_of_cons, elem_of_nil in Hp.
      destruct Hp as [->|[->|[->|[]]]]; done. }
  rewrite (Hall3 (fun p => p ≠ "" → is_ErrNotExist (Stat p) = true)).
  rewrite <-C1, <-C2, <-C3.
  destruct (negb (String.eqb (Flags.outputPrivate f) "") && _);
    [split; [done|by intros (_ & _ & (? & _) & _)]|].
  destruct (negb (String.eqb (Flags.outputPublic f) "") && _);
    [split; [done|by intros (_ & _ & (_ & ? & _) & _)]|].
  destruct (negb (String.eqb (Flags.outputLoopback f) "") && _);
    [split; [done|by intros (_ & _ & (_ & _ & ?) & _)]|].
  destruct (Flags.ipv4 f), (Flags.ipv6 f); simpl; split;
    try (intros H; discriminate H);
    try (by intros (_ & _ & _ & [?|?]));
    try (intros _; reflexivity);
    intros _; (split; [done|]; split; [exact Hall|];
               split; [by repeat split|]; auto).
Qed.

(** Flags that [Validate] accepts never give the input file as an output
    path: no output of the run can be the file the hosts are read from. *)
Theorem Validate_input_not_output (Stat : string → StatResult) (f : Flags.t)
    (p : string) :
  Flags_Validate Stat f = None →
  p ∈ outputs f → p ≠ "" → p ≠ Flags.inputFile f.
Proof.
  intros (Hin & _ & Hout & _)%Validate_accepts_iff Hp Hne ->.
  specialize (Hout _ Hp Hne). by rewrite Hin in Hout.
Qed.

(** ** What the reports hold *)

Section Aggregation.
Context {W R : Type} `{!Writer W, !Resolver R}.
Implicit Types (f : fragment W) (fm : gmap string (list string)).
Implicit Types (mp : ipSubMap W) (r : R) (rd : Reader) (s : Scope).

(** After [append] the key holds its former hosts followed by the new one,
    every other key is as before, the key is the only one that may be new,
    and the sink is untouched. *)
Theorem fragment_append_lookup f fm ip host :
  m f = Some fm →
  ∃ fm',
    m (fragment_append f ip host) = Some fm'
    ∧ fm' !! ip = Some (index fm ip ++ [host])
    ∧ (∀ k, k ≠ ip → fm' !! k = fm !! k)
    ∧ dom fm' = {[ip]} ∪ dom fm
    ∧ out (fragment_append f ip host) = out f.
Proof.
  intros Hm. unfold fragment_append. rewrite Hm. eexists.
  split; [reflexivity|]. split; [by rewrite lookup_insert_eq|].
  split; [intros k Hk; by rewrite lookup_insert_ne|].
  split; [by rewrite dom_insert_L|done].
Qed.

Lemma index_append f fm ip host :
  m f = Some fm →
  ∃ fm', m (fragment_append f ip host) = Some fm'
         ∧ ∀ k, index fm' k
                = index fm k ++ (if String.eqb ip k then [host] else []).
Proof.
  intros Hm.
  destruct (fragment_append_lookup f fm ip host Hm)
    as (fm' & Hm' & Hip & Hother & _).
  exists fm'. split; [done|]. intros k. unfold index.
  destruct (String.eqb_spec ip k) as [<-|Hne].
  - by rewrite Hip.
  - rewrite Hother by done. by rewrite app_nil_r.
Qed.

Lemma record_nil f host ips : m f = None → record f host ips = f.
Proof.
  intros Hm. induction ips as [|ip ips IH]; [done|]. simpl.
  by rewrite fragment_append_nil.
Qed.

Lemma record_index f fm host ips :
  m f = Some fm →
  ∃ fm', m (record f host ips) = Some fm'
         ∧ ∀ k, index fm' k
                = index fm k
                  ++ map (fun _ => host)
                       (List.filter
                          (fun ip => String.eqb (IP_String ip) k) ips).
Proof.
  revert f fm. induction ips as [|ip ips IH]; intros f fm Hm.
  - exists fm. split; [done|]. intros k. by rewrite app_nil_r.
  - destruct (index_append f fm (IP_String ip) host Hm) as (fm1 & Hm1 & H1).
    destruct (IH _ _ Hm1) as (fm' & Hm' & Hi).
    exists fm'. split; [exact Hm'|]. intros k. rewrite Hi, H1. simpl.
    destruct (String.eqb (IP_String ip) k); simpl;
      by rewrite <-app_assoc.
Qed.

Lemma record_out f host ips : out (record f host ips) = out f.
Proof.
  revert f. induction ips as [|ip ips IH]; intros f; [done|]. simpl.
  rewrite IH. apply fragment_append_out.
Qed.

Lemma record_paired f host ips : paired f → paired (record f host ips).
Proof.
  revert f. induction ips as [|ip ips IH]; intros f Hp; [done|]. simpl.
  apply IH. by apply fragment_append_paired.
Qed.

Lemma record_answer_report mp a s :
  report s (record_answer mp a) = record (report s mp) a.1 (received s mp a).
Proof.
  unfold record_answer, received. destruct a as [host [ips [e|]]]; simpl.
  - done.
  - apply resolve_loop_report.
Qed.

Lemma record_answer_flags mp a :
  ipv4 (record_answer mp a) = ipv4 mp ∧ ipv6 (record_answer mp a) = ipv6 mp.
Proof.
  unfold record_answer. destruct (a.2.2); [done|]. apply resolve_loop_flags.
Qed.

Lemma hits_flags mp mp' s k a :
  ipv4 mp' = ipv4 mp → ipv6 mp' = ipv6 mp → hits s mp' k a = hits s mp k a.
Proof.
  intros H4 H6. unfold hits, received. destruct (a.2.2); [done|].
  do 2 f_equal. apply List.filter_ext. intros ip.
  by rewrite (skipped_flags mp mp').
Qed.

Lemma run_flags mp tr :
  ipv4 (foldl record_answer mp tr) = ipv4 mp
  ∧ ipv6 (foldl record_answer mp tr) = ipv6 mp.
Proof.
  revert mp. induction tr as [|a tr IH]; intros mp; [done|]. simpl.
  destruct (IH (record_answer mp a)) as [-> ->]. apply record_answer_flags.
Qed.

Lemma run_index mp tr s fm :
  m (report s mp) = Some fm →
  ∃ fm', m (report s (foldl record_answer mp tr)) = Some fm'
         ∧ ∀ k, index fm' k = index fm k ++ flat_map (hits s mp k) tr.
Proof.
  revert mp fm. induction tr as [|a tr IH]; intros mp fm Hm.
  - exists fm. split; [done|]. intros k. by rewrite app_nil_r.
  - simpl.
    destruct (record_index (report s mp) fm a.1 (received s mp a) Hm)
      as (fm1 & Hm1 & H1).
    rewrite <-record_answer_report in Hm1.
    destruct (IH _ _ Hm1) as (fm' & Hm' & Hi).
    exists fm'. split; [exact Hm'|]. intros k. rewrite Hi, H1.
    destruct (record_answer_flags mp a) as [H4 H6].
    rewrite <-app_assoc. f_equal. f_equal.
    apply flat_map_ext. intros b. by apply hits_flags.
Qed.

Lemma run_out mp tr s :
  out (report s (foldl record_answer mp tr)) = out (report s mp).
Proof.
  revert mp. induction tr as [|a tr IH]; intros mp; [done|]. simpl.
  rewrite IH, record_answer_report. apply record_out.
Qed.

Lemma run_paired mp tr s :
  paired (report s mp) → paired (report s (foldl record_answer mp tr)).
Proof.
  revert mp. induction tr as [|a tr IH]; intros mp Hp; [done|]. simpl.
  apply IH. rewrite record_answer_report. by apply record_paired.
Qed.

Lemma run_nil mp tr s :
  m (report s mp) = None →
  report s (foldl record_answer mp tr) = report s mp.
Proof.
  revert mp. induction tr as [|a tr IH]; intros mp Hm; [done|]. simpl.
  assert (report s (record_answer mp a) = report s mp) as E.
  { rewrite record_answer_report. by apply record_nil. }
  rewrite IH; [done|]. by rewrite E.
Qed.

(** What [enumerate] leaves under a key of a report: the hosts that were
    there, followed, in input order, by every host that resolved to an
    accepted address of the scope of the report whose text is the key,
    once for each such address; duplicates are kept. *)
Theorem enumerate_aggregates r mp rd s fm :
  m (report s mp) = Some fm →
  ∃ fm',
    m (report s (ipSubMap_enumerate r mp rd).1.2) = Some fm'
    ∧ ∀ k, index fm' k
           = index fm k
             ++ flat_map (hits s mp k)
                  (answers r (List.filter nonempty (Scanner rd).1)).2.
Proof.
  intros Hm. rewrite enumerate_answers. simpl. by apply run_index.
Qed.

(** [enumerate] only appends: under every key the former hosts stay, in
    place, at the front; and every host it adds is a non-empty line of the
    input. *)
Theorem enumerate_append_only r mp rd s fm :
  m (report s mp) = Some fm →
  ∃ fm',
    m (report s (ipSubMap_enumerate r mp rd).1.2) = Some fm'
    ∧ ∀ k, ∃ added,
        index fm' k = index fm k ++ added
        ∧ ∀ host, host ∈ added → host ∈ (Scanner rd).1 ∧ host ≠ "".
Proof.
  intros Hm.
  destruct (enumerate_aggregates r mp rd s fm Hm) as (fm' & Hm' & Hi).
  exists fm'. split; [exact Hm'|]. intros k. eexists. split; [apply Hi|].
  intros host Hin. apply list_elem_of_In, in_flat_map in Hin
    as (a & Ha & Hh).
  unfold hits in Hh. apply in_map_iff in Hh as (ip & <- & _).
  assert (a.1 ∈ (answers r (List.filter nonempty (Scanner rd).1)).2.*1)
    as Hhost.
  { apply list_elem_of_fmap. exists a. split; [done|].
    by apply list_elem_of_In. }
  rewrite answers_hosts in Hhost.
  apply list_elem_of_In, filter_In in Hhost as [Hl Hne].
  split; [by apply list_elem_of_In|]. intros E. by rewrite E in Hne.
Qed.

(** [enumerate] never touches a sink nor a flag, keeps a report without a
    map as it is, and keeps sink and map together where they were. *)
Theorem enumerate_invariants r mp rd s :
  out (report s (ipSubMap_enumerate r mp rd).1.2) = out (report s mp)
  ∧ ipv4 (ipSubMap_enumerate r mp rd).1.2 = ipv4 mp
  ∧ ipv6 (ipSubMap_enumerate r mp rd).1.2 = ipv6 mp
  ∧ (m (report s mp) = None →
     report s (ipSubMap_enumerate r mp rd).1.2 = report s mp)
  ∧ (paired (report s mp) →
     paired (report s (ipSubMap_enumerate r mp rd).1.2)).
Proof.
  rewrite enumerate_answers. simpl.
  split; [apply run_out|].
  split; [apply run_flags|]. split; [apply run_flags|].
  split; [apply run_nil|apply run_paired].
Qed.

(** [enumerate] returns no error exactly when the input was read to its
    end and every non-empty line resolved. *)
Theorem enumerate_nil_iff r mp rd :
  (ipSubMap_enumerate r mp rd).2 = None
  ↔ (Scanner rd).2 = None
    ∧ Forall (fun a => a.2.2 = None)
        (answers r (List.filter nonempty (Scanner rd).1)).2.
Proof.
  rewrite enumerate_answers. simpl.
  destruct (Scanner rd).2 as [cause|]; [split; [done|by intros [? _]]|].
  set (tr := (answers r _).2). clearbody tr.
  split.
  - intros Hj. split; [done|].
    induction tr as [|[h [ips [e|]]] tr IH]; [constructor|done|].
    constructor; [done|]. by apply IH.
  - intros [_ Hall]. induction Hall as [|[h [ips [e|]]] tr Ha _ IH];
      [done|done|]. exact IH.
Qed.
End Aggregation.

(** ** Reading *)

Lemma scan_lines_tokens (raw : list string) (e1 e2 : option error) :
  (scan_lines raw e1).1 = (scan_lines raw e2).1.
Proof.
  induction raw as [|l raw IH]; [done|]. simpl.
  destruct (MaxScanTokenSize <=? _)%N; [done|].
  destruct (scan_lines raw e1) as [t1 x1], (scan_lines raw e2) as [t2 x2].
  simpl in *. by rewrite IH.
Qed.

Section Reading.
Context {W R : Type} `{!Writer W, !Resolver R}.
Implicit Types (mp : ipSubMap W) (r : R).

(** A failure of the reader changes the returned error only: the lines
    delivered before it are resolved and recorded as they are when the
    same bytes end the input. *)
Theorem enumerate_read_failure_keeps r mp (bytes : string)
    (e : option error) :
  (ipSubMap_enumerate r mp {| data := bytes; failure := e |}).1
  = (ipSubMap_enumerate r mp {| data := bytes; failure := None |}).1.
Proof.
  rewrite !enumerate_answers. unfold Scanner; simpl.
  by rewrite (scan_lines_tokens _ e None).
Qed.

(** An input without a non-empty line, read to its end, asks the resolver
    for nothing, leaves the mapper as it is and returns no error. *)
Theorem enumerate_blank_input r mp rd :
  (Scanner rd).2 = None →
  Forall (fun l => l = "") (Scanner rd).1 →
  ipSubMap_enumerate r mp rd = (r, mp, None).
Proof.
  intros He Hall. rewrite enumerate_answers, He.
  assert (List.filter nonempty (Scanner rd).1 = []) as ->; [|done].
  induction Hall as [|l ls -> _ IH]; [done|]. exact IH.
Qed.
End Reading.

(** ** The two forms of an IPv4 address *)

Lemma To4_short (ip4 : IP) : length ip4 = 4%nat → To4 ip4 = Some ip4.
Proof. unfold To4, IPv4len. by intros ->. Qed.

(** An address and its 4-byte form go to the same report under the same
    key: a host that resolves to both forms of an IPv4 address is
    recorded as resolving to one address twice. *)
Theorem resolve_ip_forms {W} (mp : ipSubMap W) (host : string)
    (ip ip4 : IP) :
  To4 ip = Some ip4 → resolve_ip host mp ip = resolve_ip host mp ip4.
Proof.
  intros H4. pose proof (To4_short ip4 (To4_length ip ip4 H4)) as H44.
  unfold resolve_ip, route, IsLoopback, IsPrivate.
  rewrite (IP_String_To4 ip ip4 H4), (IP_String_To4 ip4 ip4 H44).
  by rewrite H4, H44.
Qed.

(** ** The write phase and the exit code *)

Section WritePhase.
Context {W : Type} `{!Writer W}.
Implicit Types (mp : ipSubMap W) (f : fragment W) (s : Scope).

Lemma fragment_write_map order f : m (fragment_write order f).1 = m f.
Proof.
  unfold fragment_write. destruct f as [[w|] [fm|]]; simpl; try done.
  by destruct (write_keys w fm (sort_Strings order)).
Qed.

Lemma fragment_write_sink order f :
  is_nil (out (fragment_write order f).1) = is_nil (out f).
Proof.
  unfold fragment_write. destruct f as [[w|] [fm|]]; simpl; try done.
  by destruct (write_keys w fm (sort_Strings order)).
Qed.

Lemma write_reports mp orders s :
  report s (ipSubMap_write orders mp).1
  = (fragment_write (order_of s orders) (report s mp)).1.
Proof. rewrite ipSubMap_write_reports. by destruct s. Qed.

(** [write] changes no map and no flag, and gives no sink to a report
    that had none nor takes one away. *)
Theorem write_invariants mp orders s :
  m (report s (ipSubMap_write orders mp).1) = m (report s mp)
  ∧ is_nil (out (report s (ipSubMap_write orders mp).1))
    = is_nil (out (report s mp))
  ∧ ipv4 (ipSubMap_write orders mp).1 = ipv4 mp
  ∧ ipv6 (ipSubMap_write orders mp).1 = ipv6 mp.
Proof.
  rewrite write_reports.
  split; [apply fragment_write_map|]. split; [apply fragment_write_sink|].
  by rewrite ipSubMap_write_reports.
Qed.

(** [write] returns no error exactly when the write of each of the three
    reports succeeded. *)
Theorem write_nil_iff mp orders :
  (ipSubMap_write orders mp).2 = None
  ↔ ∀ s, (fragment_write (order_of s orders) (report s mp)).2 = None.
Proof.
  rewrite ipSubMap_write_reports. unfold write_errors. cbn [snd].
  change (private mp) with (report Private mp).
  change (public mp) with (report Public mp).
  change (loopback mp) with (report Loopback mp).
  split.
  - intros H s.
    destruct (fragment_write (order_of Private orders)
                (report Private mp)).2 eqn:E1; [done|].
    destruct (fragment_write (order_of Public orders)
                (report Public mp)).2 eqn:E2; [done|].
    destruct (fragment_write (order_of Loopback orders)
                (report Loopback mp)).2 eqn:E3; [done|].
    by destruct s.
  - intros H.
    rewrite (H Private), (H Public), (H Loopback). done.
Qed.

Lemma write_keys_accepting (w : W) fm keys :
  accepting W → (write_keys w fm keys).2 = None.
Proof.
  intros Hacc. revert w. induction keys as [|k keys IH]; intros w; [done|].
  simpl. specialize (Hacc w (line fm k)).
  destruct (Write w (line fm k)) as [w' [e|]]; [done|]. apply IH.
Qed.

(** On sinks that accept every write, [write] returns no error. *)
Theorem write_accepting mp orders :
  accepting W → (ipSubMap_write orders mp).2 = None.
Proof.
  intros Hacc. apply write_nil_iff. intros s. unfold fragment_write.
  destruct (m (report s mp)) as [fm|]; [|done].
  destruct (out (report s mp)) as [w|]; [|done]. simpl.
  pose proof (write_keys_accepting w fm
                (sort_Strings (order_of s orders)) Hacc) as H.
  by destruct (write_keys w fm (sort_Strings (order_of s orders))).
Qed.
End WritePhase.

Section Exit.
Context {W R : Type} `{!Writer W, !Resolver R}.
Implicit Types (mp : ipSubMap W) (r : R) (rd : Reader).

Lemma main_run_parts r mp rd orders :
  main_run r mp rd orders
  = let en := ipSubMap_enumerate r mp rd in
    let wr := ipSubMap_write orders en.1.2 in
    (en.1.1, wr.1,
     match en.2 with
     | Some err =>
         [{| level := LevelError;
             msg := "Encountered errors while enumerating";
             attr := Some err |}]
     | None => []
     end
     ++ [{| level := LevelInfo; msg := "Writing output files";
            attr := None |}]
     ++ match wr.2 with
        | Some err =>
            [{| level := LevelError;
                msg := "Encountered errors while writing";
                attr := Some err |}]
        | None => []
        end,
     match wr.2 with Some _ => 1%nat | None => 0%nat end).
Proof.
  unfold main_run. destruct (ipSubMap_enumerate r mp rd) as [[r1 mp1] e1].
  simpl. destruct (ipSubMap_write orders mp1) as [mp2 [e2|]]; simpl.
  - by rewrite <-app_assoc.
  - done.
Qed.

(** The process exits with 0 exactly when each report, as [enumerate]
    left it, was written without error, and with 1 otherwise: neither a
    failed resolution nor a failed read changes the exit code, and the
    reports are written after either. *)
Theorem main_exit_code r mp rd orders :
  let mp1 := (ipSubMap_enumerate r mp rd).1.2 in
  ((main_run r mp rd orders).2 = 0%nat
   ↔ ∀ s, (fragment_write (order_of s orders) (report s mp1)).2 = None)
  ∧ ((main_run r mp rd orders).2 = 0%nat
     ∨ (main_run r mp rd orders).2 = 1%nat)
  ∧ (main_run r mp rd orders).1.1.2 = (ipSubMap_write orders mp1).1.
Proof.
  intros mp1. rewrite main_run_parts. simpl. fold mp1.
  rewrite <-write_nil_iff.
  destruct (ipSubMap_write orders mp1).2; simpl.
  - split; [split; done|]. split; [by right|done].
  - split; [split; done|]. split; [by left|done].
Qed.

(** On sinks that accept every write the process exits with 0 whatever the
    resolver answers and however the reading ends. *)
Theorem main_exit_accepting r mp rd orders :
  accepting W → (main_run r mp rd orders).2 = 0%nat.
Proof.
  intros Hacc. apply main_exit_code. intros s.
  pose proof (write_accepting (ipSubMap_enumerate r mp rd).1.2 orders Hacc)
    as H.
  by apply write_nil_iff.
Qed.
End Exit.

(** ** The keys of the reports *)

Section Keys.
Context {W R : Type} `{!Writer W, !Resolver R}.
Implicit Types (f : fragment W) (fm : gmap string (list string)).
Implicit Types (mp : ipSubMap W) (r : R) (rd : Reader) (s : Scope).

Lemma record_dom f fm host ips :
  m f = Some fm →
  ∃ fm', m (record f host ips) = Some fm'
         ∧ dom fm' = dom fm ∪ list_to_set (IP_String <$> ips).
Proof.
  revert f fm. induction ips as [|ip ips IH]; intros f fm Hm.
  - exists fm. split; [done|]. set_solver.
  - destruct (fragment_append_lookup f fm (IP_String ip) host Hm)
      as (fm1 & Hm1 & _ & _ & Hd & _).
    destruct (IH _ _ Hm1) as (fm' & Hm' & Hd').
    exists fm'. split; [exact Hm'|]. rewrite Hd', Hd, fmap_cons.
    set_solver.
Qed.

Lemma received_flags mp mp' s a :
  ipv4 mp' = ipv4 mp → ipv6 mp' = ipv6 mp → received s mp' a = received s mp a.
Proof.
  intros H4 H6. unfold received. destruct (a.2.2); [done|].
  apply List.filter_ext. intros ip. by rewrite (skipped_flags mp mp').
Qed.

Lemma run_dom mp tr s fm :
  m (report s mp) = Some fm →
  ∃ fm', m (report s (foldl record_answer mp tr)) = Some fm'
         ∧ dom fm'
           = dom fm
             ∪ list_to_set (IP_String <$> flat_map (received s mp) tr).
Proof.
  revert mp fm. induction tr as [|a tr IH]; intros mp fm Hm.
  - exists fm. split; [done|]. set_solver.
  - simpl.
    destruct (record_dom (report s mp) fm a.1 (received s mp a) Hm)
      as (fm1 & Hm1 & H1).
    rewrite <-record_answer_report in Hm1.
    destruct (IH _ _ Hm1) as (fm' & Hm' & Hd).
    exists fm'. split; [exact Hm'|]. rewrite Hd, H1.
    destruct (record_answer_flags mp a) as [H4 H6].
    rewrite (flat_map_ext (received s (record_answer mp a))
               (received s mp))
      by (intros b; by apply received_flags).
    rewrite fmap_app, list_to_set_app_L. set_solver.
Qed.

(** The keys of a report after [enumerate] are its former keys and the
    texts of the accepted addresses of its scope that the hosts of the
    input resolved to: these, and no other, are the lines [write] will
    emit. *)
Theorem enumerate_keys r mp rd s fm :
  m (report s mp) = Some fm →
  ∃ fm',
    m (report s (ipSubMap_enumerate r mp rd).1.2) = Some fm'
    ∧ ∀ k, k ∈ dom fm'
           ↔ k ∈ dom fm
             ∨ ∃ a ip,
                 a ∈ (answers r (List.filter nonempty (Scanner rd).1)).2
                 ∧ a.2.2 = None
                 ∧ ip ∈ a.2.1
                 ∧ skipped mp ip = false
                 ∧ in_scope s ip = true
                 ∧ IP_String ip = k.
Proof.
  intros Hm. rewrite enumerate_answers. simpl.
  set (tr := (answers r _).2). clearbody tr.
  destruct (run_dom mp tr s fm Hm) as (fm' & Hm' & Hd).
  exists fm'. split; [exact Hm'|]. intros k.
  rewrite Hd, elem_of_union, elem_of_list_to_set, list_elem_of_fmap.
  apply or_iff_compat_l. split.
  - intros (ip & -> & Hip).
    apply list_elem_of_In, in_flat_map in Hip as (a & Ha & Hip).
    exists a, ip. split; [by apply list_elem_of_In|].
    unfold received in Hip. destruct (a.2.2); [done|].
    apply filter_In in Hip as [Hin Hc].
    apply andb_true_iff in Hc as [Hs%negb_true_iff Hsc].
    repeat split; try done. by apply list_elem_of_In.
  - intros (a & ip & Ha & He & Hin & Hs & Hsc & <-).
    exists ip. split; [done|]. apply list_elem_of_In, in_flat_map.
    exists a. split; [by apply list_elem_of_In|].
    unfold received. rewrite He. apply filter_In.
    split; [by apply list_elem_of_In|]. by rewrite Hs, Hsc.
Qed.

Lemma fragment_append_nonempty f ip host :
  hosts_nonempty f → hosts_nonempty (fragment_append f ip host).
Proof.
  intros Hne fm' k hosts Hm' Hk.
  destruct (m f) as [fm|] eqn:Hm.
  - destruct (fragment_append_lookup f fm ip host Hm)
      as (fm1 & Hm1 & Hip & Hother & _).
    rewrite Hm1 in Hm'. injection Hm' as <-.
    destruct (decide (k = ip)) as [->|Hki].
    + rewrite Hip in Hk. injection Hk as <-.
      intros E. by apply app_eq_nil in E as [_ ?].
    + rewrite Hother in Hk by done. by apply (Hne fm k).
  - rewrite fragment_append_nil in Hm' by done. congruence.
Qed.

Lemma record_nonempty f host ips :
  hosts_nonempty f → hosts_nonempty (record f host ips).
Proof.
  revert f. induction ips as [|ip ips IH]; intros f Hne; [done|]. simpl.
  apply IH. by apply fragment_append_nonempty.
Qed.

(** [enumerate] leaves no key without a host: when every key of a report
    had a host before, as in the empty reports [main] builds, every key
    has one after, so every line [write] emits names a host. *)
Theorem enumerate_hosts_nonempty r mp rd s :
  hosts_nonempty (report s mp) →
  hosts_nonempty (report s (ipSubMap_enumerate r mp rd).1.2).
Proof.
  rewrite enumerate_answers. simpl.
  set (tr := (answers r _).2). clearbody tr. revert mp.
  induction tr as [|a tr IH]; intros mp Hne; [done|]. simpl.
  apply IH. rewrite record_answer_report. by apply record_nonempty.
Qed.
End Keys.

(** * The further properties at the sample data *)

Lemma Validate_input_not_output_witness :
  Flags_Validate sample_stat sample_flags = None
  ∧ "private.txt" ≠ Flags.inputFile sample_flags.
Proof.
  split; [reflexivity|].
  apply (Validate_input_not_output sample_stat sample_flags "private.txt");
    [reflexivity | by_computation | by_computation].
Defined.

Lemma fragment_append_lookup_witness :
  ∃ fm',
    m (fragment_append {| out := Some ("" : Buffer); m := Some sample_map |}
         "1.1.1.1" "c") = Some fm'
    ∧ fm' !! "1.1.1.1" = Some ["a"; "b"; "c"]
    ∧ fm' !! "2.2.2.2" = Some ["a"].
Proof.
  destruct (fragment_append_lookup
              {| out := Some ("" : Buffer); m := Some sample_map |}
              sample_map "1.1.1.1" "c" eq_refl)
    as (fm' & Hm & Hip & Hother & _).
  exists fm'. split; [exact Hm|]. split; [exact Hip|].
  rewrite Hother by by_computation. reflexivity.
Defined.

Lemma enumerate_aggregates_witness :
  ∃ fm',
    m (public (ipSubMap_enumerate sample_table (sample_mapper true true)
                 partial_input).1.2) = Some fm'
    ∧ index fm' "93.184.216.34" = ["good.example"; "good2.example"].
Proof.
  destruct (enumerate_aggregates sample_table (sample_mapper true true)
              partial_input Public ∅ eq_refl) as (fm' & Hm & Hi).
  exists fm'. split; [exact Hm|]. rewrite Hi. vm_compute. reflexivity.
Defined.

Lemma enumerate_append_only_witness :
  ∃ fm',
    m (private (ipSubMap_enumerate sample_table (sample_mapper true true)
                  partial_input).1.2) = Some fm'
    ∧ ∃ added, index fm' "10.0.0.5" = [] ++ added.
Proof.
  destruct (enumerate_append_only sample_table (sample_mapper true true)
              partial_input Private ∅ eq_refl) as (fm' & Hm & Hk).
  exists fm'. split; [exact Hm|].
  destruct (Hk "10.0.0.5") as (added & Hi & _). by exists added.
Defined.

Lemma enumerate_invariants_witness :
  paired (private (ipSubMap_enumerate sample_table (sample_mapper true true)
                     partial_input).1.2).
Proof.
  destruct (enumerate_invariants sample_table (sample_mapper true true)
              partial_input Private) as (_ & _ & _ & _ & Hp).
  apply Hp. split; discriminate.
Defined.

Lemma enumerate_blank_input_witness :
  Scanner blank_only_input = ([""; ""; ""], None)
  ∧ ipSubMap_enumerate sample_table (sample_mapper true true)
      blank_only_input
    = (sample_table, sample_mapper true true, None).
Proof.
  split; [reflexivity|].
  apply (enumerate_blank_input (W := Buffer)); [reflexivity|].
  by_computation.
Defined.

Lemma resolve_ip_forms_witness :
  resolve_ip "mapped.example" (sample_mapper true true) ip_mapped_192_0_2_1
  = resolve_ip "mapped.example" (sample_mapper true true)
      [xc0; x00; x02; x01].
Proof. apply resolve_ip_forms. reflexivity. Defined.

Lemma Buffer_accepting : accepting Buffer.
Proof. intros w p. reflexivity. Defined.

Lemma write_accepting_witness :
  (ipSubMap_write (["1.1.1.1"; "2.2.2.2"], [], [])
     {| private := {| out := Some ("" : Buffer); m := Some sample_map |};
        public := empty_report ""; loopback := new_fragment None;
        ipv4 := true; ipv6 := true |}).2 = None.
Proof. apply write_accepting. exact Buffer_accepting. Defined.

Lemma main_exit_accepting_witness :
  (main_run sample_table (sample_mapper true true) broken_input
     ([], [], [])).2 = 0%nat.
Proof. apply main_exit_accepting. exact Buffer_accepting. Defined.

Lemma enumerate_keys_witness :
  ∃ fm',
    m (public (ipSubMap_enumerate sample_table (sample_mapper true true)
                 partial_input).1.2) = Some fm'
    ∧ "93.184.216.34" ∈ dom fm'.
Proof.
  destruct (enumerate_keys sample_table (sample_mapper true true)
              partial_input Public ∅ eq_refl) as (fm' & Hm & Hk).
  exists fm'. split; [exact Hm|]. apply Hk. right.
  exists ("good.example", ([ip_93_184_216_34], None)), ip_93_184_216_34.
  split; [apply list_elem_of_here|].
  split; [reflexivity|]. split; [apply list_elem_of_here|].
  repeat split.
Defined.

Lemma enumerate_hosts_nonempty_witness :
  hosts_nonempty
    (public (ipSubMap_enumerate sample_table (sample_mapper true true)
               partial_input).1.2).
Proof.
  apply (enumerate_hosts_nonempty sample_table (sample_mapper true true)
           partial_input Public).
  intros fm k hosts [= <-] Hk. by rewrite lookup_empty in Hk.
Defined.

(** * A line that does not fit the buffer of the scanner *)

Lemma raw_lines_line (s1 s2 acc : string) :
  has_LF s1 = false →
  raw_lines acc (s1 +:+ LF +:+ s2) = (acc +:+ s1) :: raw_lines "" s2.
Proof.
  revert acc. induction s1 as [|c s1 IH]; intros acc Hs.
  - change (raw_lines acc (String "010" s2) = (acc +:+ "") :: raw_lines "" s2).
    simpl. f_equal. clear. induction acc as [|x acc IH]; [done|].
    change (String x acc = String x (acc +:+ "")). by rewrite <-IH.
  - simpl in Hs. apply orb_false_iff in Hs as [Hc Hs].
    change (raw_lines acc (String c (s1 +:+ LF +:+ s2))
            = (acc +:+ String c s1) :: raw_lines "" s2).
    simpl. rewrite Hc, (IH _ Hs). by rewrite string_app_assoc.
Qed.

Lemma long_line_no_LF : has_LF long_line = false.
Proof. vm_compute. reflexivity. Qed.

Lemma long_line_overlong :
  (MaxScanTokenSize <=? N.of_nat (String.length long_line))%N = true.
Proof. vm_compute. reflexivity. Qed.

Lemma overlong_input_lines :
  raw_lines "" (data overlong_input)
  = ["bad.invalid"; long_line; "good.example"].
Proof.
  unfold overlong_input, data.
  rewrite (raw_lines_line "bad.invalid") by reflexivity.
  rewrite (raw_lines_line long_line) by apply long_line_no_LF.
  reflexivity.
Qed.

Lemma overlong_input_scan :
  Scanner overlong_input = (["bad.invalid"], Some ErrTooLong).
Proof.
  unfold Scanner. rewrite overlong_input_lines.
  cbn [scan_lines]. rewrite long_line_overlong. reflexivity.
Qed.

(** C8, as stated, fails: [overlong_input] is read without failure and has
    three non-empty lines, but the scan ends at the line of 65536 bytes,
    and the resolver is asked for the first line only. *)
Lemma C8_overlong_line_ends_scan :
  raw_lines "" (data overlong_input)
  = ["bad.invalid"; long_line; "good.example"]
  ∧ failure overlong_input = None
  ∧ (ipSubMap_enumerate (sample_table, []) (sample_mapper true true)
       overlong_input).1.1.2
    = ["bad.invalid"]
  ∧ (ipSubMap_enumerate (sample_table, []) (sample_mapper true true)
       overlong_input).1.1.2
    ≠ [] ++ List.filter nonempty
              (map dropCR (raw_lines "" (data overlong_input))).
Proof.
  assert ((ipSubMap_enumerate (sample_table, []) (sample_mapper true true)
             overlong_input).1.1.2 = ["bad.invalid"]) as E.
  { rewrite enumerate_answers, overlong_input_scan. vm_compute. reflexivity. }
  split; [apply overlong_input_lines|]. split; [reflexivity|].
  split; [exact E|]. rewrite E, overlong_input_lines. cbn [map].
  generalize (dropCR long_line). intros x H.
  apply (f_equal length) in H. cbn in H.
  destruct (nonempty x); discriminate H.
Qed.

(** C5, as stated, fails: on [overlong_input], which is read without
    failure, the resolution of bad.invalid fails, the scan ends at the
    next line, good.example after it is not resolved although it would
    resolve, no report changes, and the error returned does not mention
    bad.invalid. *)
Lemma C5_overlong_line_ends_run :
  raw_lines "" (data overlong_input)
  = ["bad.invalid"; long_line; "good.example"]
  ∧ LookupIP sample_table "bad.invalid"
    = (sample_table, ([], Some (External "no such host")))
  ∧ LookupIP sample_table "good.example"
    = (sample_table, ([ip_93_184_216_34], None))
  ∧ ipSubMap_enumerate sample_table (sample_mapper true true) overlong_input
    = (sample_table, sample_mapper true true,
       Some (InputReadError ErrTooLong))
  ∧ mentions "bad.invalid" (InputReadError ErrTooLong) = false.
Proof.
  split; [apply overlong_input_lines|].
  split; [reflexivity|]. split; [reflexivity|]. split; [|reflexivity].
  rewrite enumerate_answers, overlong_input_scan. vm_compute. reflexivity.
Qed.
